(** * Dispatcharr, core/views.py: slot allocation, lock handling and relay

    A shallow embedding of [stream_view] and of its inner generator
    [stream_generator].  Python statements that touch the outside world (the
    Redis lock store, the subprocess, the ORM tables) are functions on an
    explicit [World]; exceptions and early [return]s are the outcomes of a
    small monad, so that the state reached when an exception is raised is
    the state the handler sees. *)

From Stdlib Require Import ZArith Ascii String Lia.
From stdpp Require Import base option list strings pretty gmap.

Open Scope Z_scope.

(** ** Python exceptions

    The instances of Python's [Exception] that the modelled calls raise;
    every one of them is caught by an [except Exception] clause. *)
Inductive PyExc :=
| AttributeError (ty attr : string)
| DoesNotExist (model : string)
| MultipleObjectsReturned (model : string) (n : nat)
| ReError (msg : string)
| RedisConnectionError
| OtherException (cls msg : string).

(** [str(e)], as the f-strings of lines 139 and 143 print it. *)
Definition exc_str (e : PyExc) : string :=
  match e with
  | AttributeError ty attr =>
      "'" +:+ ty +:+ "' object has no attribute '" +:+ attr +:+ "'"
  | DoesNotExist model => model +:+ " matching query does not exist."
  | MultipleObjectsReturned model n =>
      "get() returned more than one " +:+ model +:+ " -- it returned "
        +:+ pretty (Z.of_nat n) +:+ "!"
  | ReError msg => msg
  | RedisConnectionError => "Error connecting to the lock store."
  | OtherException _ msg => msg
  end.

(** ** Regular expressions of the [re] module

    A pattern is held in parsed form.  [Chr], [Cls], [Seq], [Alt], [Star],
    [Group], [Bol] and [Eol] stand for a literal character, a character
    class, concatenation, [|], the greedy [*], a numbered capturing group,
    [^] and [$]. *)
Inductive regex :=
| Eps
| Chr (c : ascii)
| Cls (f : ascii -> bool)
| Seq (r1 r2 : regex)
| Alt (r1 r2 : regex)
| Star (r : regex)
| Group (n : nat) (r : regex)
| Bol
| Eol.

(** A pattern string as [re] sees it: the expression it compiles to, or the
    message of the [re.error] that compiling it raises. *)
Inductive Pattern :=
| Compiles (r : regex)
| Malformed (msg : string).

(** ** The rows read from the ORM *)

Module M3UAccountProfile.
Record t := {
  id : Z;
  name : string;
  is_default : bool;
  is_active : bool;
  max_streams : Z;
  search_pattern : Pattern;
  replace_pattern : string
}.
End M3UAccountProfile.

Module M3UAccount.
Record t := {
  id : Z;
  name : string;
  profiles : list M3UAccountProfile.t
}.
End M3UAccount.

Module Stream.
Record t := {
  id : Z;
  name : string;
  url : string;
  custom_url : option string;
  m3u_account : M3UAccount.t
}.
End Stream.

Module StreamProfile.
Record t := {
  id : Z;
  profile_name : string;
  command : string;
  parameters : string;
  user_agent : option string
}.
End StreamProfile.

Module CoreSettings.
Record t := { key : string; value : Z }.
End CoreSettings.

Module Channel.
Record t := {
  id : Z;
  channel_number : Z;
  channel_name : string;
  streams : list Stream.t;
  stream_profile : option StreamProfile.t
}.
End Channel.

(** ** The subprocess

    What one [proc.stdout.read(8192)] does: it returns bytes (none at end of
    stream) or raises.  A process is given by what its successive reads will
    do and by what [terminate()] will do. *)
Inductive ReadOutcome :=
| ReadBytes (chunk : list Byte.byte)
| ReadRaises (e : PyExc).

Record Process := {
  stdout : list ReadOutcome;
  terminate_raises : option PyExc
}.

(** ** The world

    The Redis lock store maps a key to its holder's token and expiry time. *)
Record LockEntry := { holder : nat; expires_at : nat }.

Inductive Event :=
| EvAcquire (key : string) (ok : bool)
| EvRelease (key : string)
| EvPopen (cmd : list string)
| EvRead
| EvTerminate.

Record World := {
  lock_store : gmap string LockEntry;
  now : nat;
  redis_up : bool;
  next_token : nat;
  trace : list Event
}.

Definition emit (ev : Event) (w : World) : World :=
  {| lock_store := lock_store w; now := now w; redis_up := redis_up w;
     next_token := next_token w; trace := trace w ++ [ev] |}.

Definition set_store (st : gmap string LockEntry) (w : World) : World :=
  {| lock_store := st; now := now w; redis_up := redis_up w;
     next_token := next_token w; trace := trace w |}.

Definition bump_token (w : World) : World :=
  {| lock_store := lock_store w; now := now w; redis_up := redis_up w;
     next_token := S (next_token w); trace := trace w |}.

(** Time passes between the steps of a request; nothing in views.py reads
    the clock. *)
Definition tick (d : nat) (w : World) : World :=
  {| lock_store := lock_store w; now := (now w + d)%nat; redis_up := redis_up w;
     next_token := next_token w; trace := trace w |}.

(** ** The lock *)

Record PersistentLock := {
  lock_key : string;
  lock_timeout : nat;
  lock_token : nat
}.

(** A key is held while its entry has not expired. *)
Definition held (st : gmap string LockEntry) (t : nat) (key : string) : bool :=
  match st !! key with
  | Some e => (t <? expires_at e)%nat
  | None => false
  end.

(** Modelled from the spec: the Lock Store primitive [set-if-absent(key, ttl)]
    of section 6, which dispatcharr/persistent_lock.py (absent from the
    sources) calls on Redis.  One atomic step: the key is created with the
    time-to-live unless a live entry exists. *)
Definition set_if_absent (st : gmap string LockEntry) (t : nat)
    (key : string) (token ttl : nat) : bool * gmap string LockEntry :=
  if held st t key then (false, st)
  else (true, <[key := {| holder := token; expires_at := (t + ttl)%nat |}]> st).

(** Modelled from the spec: [release] "deletes the key if still owned", an
    atomic compare-and-delete on the holder token. *)
Definition delete_if_owned (st : gmap string LockEntry)
    (key : string) (token : nat) : gmap string LockEntry :=
  match st !! key with
  | Some e => if (holder e =? token)%nat then delete key st else st
  | None => st
  end.

(** ** Responses *)

Inductive GenState := GenCreated | GenSuspended | GenClosed.

(** The generator object made by [stream_generator(process, stream,
    persistent_lock)]: its three arguments and where its frame stands. *)
Record Generator := {
  gen_proc : Process;
  gen_s : Stream.t;
  gen_lock : PersistentLock;
  gen_state : GenState
}.

Inductive Response :=
| HttpResponseServerError (body : string)
| StreamingHttpResponse (streaming_content : Generator) (content_type : string).

(** ** The monad of the function body *)

Inductive Outcome (A : Type) :=
| Val (a : A)
| Raised (e : PyExc)
| Returned (r : Response).
Arguments Val {A} a.
Arguments Raised {A} e.
Arguments Returned {A} r.

Definition M (A : Type) : Type := World -> Outcome A * World.

Definition ret {A} (a : A) : M A := fun w => (Val a, w).
Definition raise {A} (e : PyExc) : M A := fun w => (Raised e, w).
Definition return_ {A} (r : Response) : M A := fun w => (Returned r, w).

Definition bind {A B} (m : M A) (f : A -> M B) : M B :=
  fun w =>
    match m w with
    | (Val a, w') => f a w'
    | (Raised e, w') => (Raised e, w')
    | (Returned r, w') => (Returned r, w')
    end.

Notation "x <- m ;; k" := (bind m (fun x => k))
  (at level 100, m at next level, right associativity).
Notation "m ;;; k" := (bind m (fun _ => k))
  (at level 100, right associativity).

(** [try: m except Exception as e: h e] *)
Definition try_except {A} (m : M A) (h : PyExc -> M A) : M A :=
  fun w =>
    match m w with
    | (Raised e, w') => h e w'
    | other => other
    end.

(** ** PersistentLock

    Modelled from the spec: class [PersistentLock] of
    dispatcharr/persistent_lock.py is not among the sources; section 4.1 of
    the spec gives its contract.  The constructor draws a fresh holder
    token. *)
Definition PersistentLock_new (key : string) (timeout : nat) : M PersistentLock :=
  fun w =>
    (Val {| lock_key := key; lock_timeout := timeout; lock_token := next_token w |},
     bump_token w).

(** Modelled from the spec: [acquire() -> bool], a single non-blocking
    attempt; a store that cannot be reached raises. *)
Definition acquire (l : PersistentLock) : M bool :=
  fun w =>
    if redis_up w then
      let '(ok, st) := set_if_absent (lock_store w) (now w)
                         (lock_key l) (lock_token l) (lock_timeout l) in
      (Val ok, emit (EvAcquire (lock_key l) ok) (set_store st w))
    else (Raised RedisConnectionError, w).

(** Modelled from the spec: [release() -> void] deletes the key if still
    owned and never raises. *)
Definition release (l : PersistentLock) : M unit :=
  fun w =>
    let st := if redis_up w
              then delete_if_owned (lock_store w) (lock_key l) (lock_token l)
              else lock_store w in
    (Val tt, emit (EvRelease (lock_key l)) (set_store st w)).

(** ** The [re] module

    Pure functions return a value or raise. *)
Inductive Result (A : Type) :=
| Ok (a : A)
| Err (e : PyExc).
Arguments Ok {A} a.
Arguments Err {A} e.

Definition lift {A} (r : Result A) : M A :=
  match r with
  | Ok a => ret a
  | Err e => raise e
  end.

Definition is_digit (c : ascii) : bool := (("0" <=? c) && (c <=? "9"))%char.
Definition is_octdigit (c : ascii) : bool := (("0" <=? c) && (c <=? "7"))%char.
Definition is_ascii_letter (c : ascii) : bool :=
  ((("a" <=? c) && (c <=? "z")) || (("A" <=? c) && (c <=? "Z")))%char.
Definition not_newline (c : ascii) : bool := negb (c =? "010")%char.
Definition digit_val (c : ascii) : nat := (nat_of_ascii c - 48)%nat.

(** Captured groups, most recent binding first; a group that took no part
    in the match reads as the empty string. *)
Definition caps : Type := list (nat * string).

Fixpoint cap_text (c : caps) (n : nat) : string :=
  match c with
  | [] => EmptyString
  | (m, t) :: c' => if (m =? n)%nat then t else cap_text c' n
  end.

Definition kont (R : Type) : Type := nat -> string -> caps -> option R.

(** Greedy iteration of [body], as sre's MAX_UNTIL runs it: a round that
    consumed something is followed by one more; a round that consumed
    nothing is the last one, it keeps what it captured and what follows the
    star comes next (the repeat is not entered again at the offset where
    its last round started).  When no round leads to a match, what follows
    the star is tried without one. *)
Fixpoint star_iter {R} (body : nat -> string -> caps -> kont R -> option R)
    (k : kont R) (n : nat) (pos : nat) (s : string) (c : caps) : option R :=
  match n with
  | O => k pos s c
  | S n' =>
      match body pos s c
              (fun p' s' c' =>
                 if (p' =? pos)%nat then k p' s' c'
                 else star_iter body k n' p' s' c') with
      | Some x => Some x
      | None => k pos s c
      end
  end.

(** The backtracking matcher: [matches r pos s c k] matches [r] at the head
    of [s], the text at offset [pos], and hands the offset, the rest and the
    groups to [k]; alternatives are tried in order until [k] accepts. *)
Fixpoint matches {R} (r : regex) (pos : nat) (s : string) (c : caps)
    (k : kont R) : option R :=
  match r with
  | Eps => k pos s c
  | Chr a =>
      match s with
      | String x s' => if (x =? a)%char then k (S pos) s' c else None
      | EmptyString => None
      end
  | Cls f =>
      match s with
      | String x s' => if f x then k (S pos) s' c else None
      | EmptyString => None
      end
  | Seq r1 r2 => matches r1 pos s c (fun p' s' c' => matches r2 p' s' c' k)
  | Alt r1 r2 =>
      match matches r1 pos s c k with
      | Some x => Some x
      | None => matches r2 pos s c k
      end
  | Star r1 => star_iter (matches r1) k (S (String.length s)) pos s c
  | Group n r1 =>
      matches r1 pos s c
        (fun p' s' c' => k p' s' ((n, substring 0 (p' - pos) s) :: c'))
  | Bol => if (pos =? 0)%nat then k pos s c else None
  | Eol =>
      match s with
      | EmptyString => k pos s c
      | String x EmptyString => if (x =? "010")%char then k pos s c else None
      | _ => None
      end
  end.

(** [pattern.groups] *)
Fixpoint groups (r : regex) : nat :=
  match r with
  | Seq r1 r2 | Alt r1 r2 => Nat.max (groups r1) (groups r2)
  | Star r1 => groups r1
  | Group n r1 => Nat.max n (groups r1)
  | _ => O
  end.

Record Match := {
  m_start : nat;
  m_end : nat;
  m_text : string;
  m_groups : caps
}.

Definition group (m : Match) (n : nat) : string :=
  match n with
  | O => m_text m
  | _ => cap_text (m_groups m) n
  end.

(** One match attempt at offset [pos]; with [must_advance] an empty match is
    refused, as after an empty match at the same offset. *)
Definition match_at (r : regex) (pos : nat) (s : string) (must_advance : bool)
    : option Match :=
  matches r pos s []
    (fun p' _ c' =>
       if must_advance && (p' =? pos)%nat then None
       else Some {| m_start := pos; m_end := p';
                    m_text := substring 0 (p' - pos) s; m_groups := c' |}).

(** [pattern.search(string)]: the leftmost match. *)
Fixpoint search (r : regex) (pos : nat) (s : string) : option Match :=
  match match_at r pos s false with
  | Some m => Some m
  | None =>
      match s with
      | EmptyString => None
      | String _ s' => search r (S pos) s'
      end
  end.

(** The substitution loop of [pattern.sub], offset by offset.  [skip] counts
    the characters still covered by the match found last.  After an empty
    match the same offset is tried once more for a match that advances. *)
Fixpoint sub_from (r : regex) (expand : Match -> string) (pos : nat)
    (s : string) (skip : nat) : string :=
  match s with
  | EmptyString =>
      match skip with
      | O =>
          match match_at r pos s false with
          | Some m => expand m
          | None => EmptyString
          end
      | S _ => EmptyString
      end
  | String x s' =>
      match skip with
      | S skip' => sub_from r expand (S pos) s' skip'
      | O =>
          match match_at r pos s false with
          | Some m =>
              if (m_end m =? pos)%nat then
                expand m +:+
                  match match_at r pos s true with
                  | Some m' =>
                      expand m' +:+
                        sub_from r expand (S pos) s' (m_end m' - pos - 1)
                  | None => String x (sub_from r expand (S pos) s' 0)
                  end
              else
                expand m +:+ sub_from r expand (S pos) s' (m_end m - pos - 1)
          | None => String x (sub_from r expand (S pos) s' 0)
          end
      end
  end.

(** *** Replacement templates *)

Inductive TemplateItem :=
| TChar (c : ascii)
| TRef (n : nat).

Definition at_position (msg : string) (pos : nat) : PyExc :=
  ReError (msg +:+ " at position " +:+ pretty pos).

Definition tcons (i : TemplateItem) (r : Result (list TemplateItem))
    : Result (list TemplateItem) :=
  match r with
  | Ok l => Ok (i :: l)
  | Err e => Err e
  end.

(** [addgroup]: a reference beyond [pattern.groups] is an error. *)
Definition tref (ngroups n pos : nat) (r : Result (list TemplateItem))
    : Result (list TemplateItem) :=
  if (ngroups <? n)%nat
  then Err (at_position ("invalid group reference " +:+ pretty n) pos)
  else tcons (TRef n) r.

Definition is_identifier_start (c : ascii) : bool :=
  is_ascii_letter c || (c =? "_")%char.

Definition all_digits (s : string) : bool :=
  forallb is_digit (list_ascii_of_string s).

Definition decimal (s : string) : nat :=
  fold_left (fun acc c => (10 * acc + digit_val c)%nat) (list_ascii_of_string s) O.

(** The name between [\g<] and [>]: a group number (names are not part of
    [regex], so an identifier is an unknown group). *)
Definition tgroup_name (ngroups : nat) (name : string) (pos : nat)
    (r : Result (list TemplateItem)) : Result (list TemplateItem) :=
  match name with
  | EmptyString => Err (at_position "missing group name" pos)
  | String x _ =>
      if all_digits name then tref ngroups (decimal name) pos r
      else if is_identifier_start x
           && forallb (fun c => is_identifier_start c || is_digit c)
                      (list_ascii_of_string name)
      then Err (OtherException "IndexError"
                  ("unknown group name '" +:+ name +:+ "'"))
      else Err (at_position ("bad character in group name '" +:+ name +:+ "'") pos)
  end.

Definition escape_char (c : ascii) : option ascii :=
  if (c =? "a")%char then Some "007"%char
  else if (c =? "b")%char then Some "008"%char
  else if (c =? "f")%char then Some "012"%char
  else if (c =? "n")%char then Some "010"%char
  else if (c =? "r")%char then Some "013"%char
  else if (c =? "t")%char then Some "009"%char
  else if (c =? "v")%char then Some "011"%char
  else if (c =? "\")%char then Some "\"%char
  else None.

(** [sre_parse.parse_template]: [s] is what is left of the template and
    [pos] its offset. *)
Fixpoint parse_template (ngroups : nat) (pos : nat) (s : string)
    : Result (list TemplateItem) :=
  match s with
  | EmptyString => Ok []
  | String x rest =>
      if negb (x =? "\")%char then tcons (TChar x) (parse_template ngroups (S pos) rest)
      else
        match rest with
        | EmptyString => Err (at_position "bad escape (end of pattern)" pos)
        | String c rest1 =>
            if (c =? "g")%char then
              match rest1 with
              | String y rest2 =>
                  if (y =? "<")%char then
                    (fix name_loop (t : string) (name : string) {struct t} :=
                       match t with
                       | EmptyString =>
                           match name with
                           | EmptyString =>
                               Err (at_position "missing group name" (pos + 3))
                           | _ => Err (at_position "missing >, unterminated name"
                                         (pos + 3))
                           end
                       | String z t' =>
                           if (z =? ">")%char then
                             tgroup_name ngroups name (pos + 3)
                               (parse_template ngroups
                                  (pos + 4 + String.length name) t')
                           else name_loop t' (name +:+ String z EmptyString)
                       end) rest2 EmptyString
                  else Err (at_position "missing <" (pos + 2))
              | EmptyString => Err (at_position "missing <" (pos + 2))
              end
            else if (c =? "0")%char then
              match rest1 with
              | String d1 rest2 =>
                  if is_octdigit d1 then
                    match rest2 with
                    | String d2 rest3 =>
                        if is_octdigit d2 then
                          tcons (TChar (ascii_of_nat (8 * digit_val d1 + digit_val d2)))
                            (parse_template ngroups (pos + 4) rest3)
                        else
                          tcons (TChar (ascii_of_nat (digit_val d1)))
                            (parse_template ngroups (pos + 3) rest2)
                    | EmptyString => Ok [TChar (ascii_of_nat (digit_val d1))]
                    end
                  else tcons (TChar zero) (parse_template ngroups (pos + 2) rest1)
              | EmptyString => Ok [TChar zero]
              end
            else if is_digit c then
              match rest1 with
              | String d1 rest2 =>
                  if is_digit d1 then
                    match rest2 with
                    | String d2 rest3 =>
                        if is_octdigit c && is_octdigit d1 && is_octdigit d2 then
                          let v := (64 * digit_val c + 8 * digit_val d1 + digit_val d2)%nat in
                          if (255 <? v)%nat then
                            Err (at_position
                                   ("octal escape value \" +:+ String c (String d1 (String d2 EmptyString))
                                      +:+ " outside of range 0-0o377") pos)
                          else tcons (TChar (ascii_of_nat v))
                                 (parse_template ngroups (pos + 4) rest3)
                        else
                          tref ngroups (10 * digit_val c + digit_val d1) (S pos)
                            (parse_template ngroups (pos + 3) rest2)
                    | EmptyString =>
                        tref ngroups (10 * digit_val c + digit_val d1) (S pos) (Ok [])
                    end
                  else tref ngroups (digit_val c) (S pos)
                         (parse_template ngroups (pos + 2) rest1)
              | EmptyString => tref ngroups (digit_val c) (S pos) (Ok [])
              end
            else
              match escape_char c with
              | Some e => tcons (TChar e) (parse_template ngroups (pos + 2) rest1)
              | None =>
                  if is_ascii_letter c
                  then Err (at_position ("bad escape \" +:+ String c EmptyString) pos)
                  else tcons (TChar "\") (tcons (TChar c)
                         (parse_template ngroups (pos + 2) rest1))
              end
        end
  end.

Fixpoint expand_template (tpl : list TemplateItem) (m : Match) : string :=
  match tpl with
  | [] => EmptyString
  | TChar c :: tpl' => String c (expand_template tpl' m)
  | TRef n :: tpl' => group m n +:+ expand_template tpl' m
  end.

Definition has_backslash (s : string) : bool :=
  existsb (fun c => (c =? "\")%char) (list_ascii_of_string s).

(** [re.sub(pattern, repl, string)]: the pattern is compiled, then the
    replacement (a template when it holds a backslash), then every match is
    replaced. *)
Definition re_sub (pattern : Pattern) (repl : string) (s : string)
    : Result string :=
  match pattern with
  | Malformed msg => Err (ReError msg)
  | Compiles r =>
      if has_backslash repl then
        match parse_template (groups r) 0 repl with
        | Ok tpl => Ok (sub_from r (expand_template tpl) 0 s 0)
        | Err e => Err e
        end
      else Ok (sub_from r (fun _ => repl) 0 s 0)
  end.

Definition Plus (r : regex) : regex := Seq r (Star r).

(** The pattern [r'\$(\d+)'] of line 107. *)
Definition dollar_digits : regex := Seq (Chr "$") (Group 1 (Plus (Cls is_digit))).

(** The replacement [r'\\\1'] of line 107: two backslashes, backslash, one. *)
Definition backslash_group1 : string :=
  String "\" (String "\" (String "\" (String "1" EmptyString))).

(** ** What the request handler reads from its surroundings

    Django's settings, the model tables, and the two library calls the
    model leaves open: [str.format] on the parameters template and
    [subprocess.Popen]. *)
Record Env := {
  REDIS_HOST : option string;
  DEFAULT_USER_AGENT : option string;
  Channel_objects : list Channel.t;
  M3UAccountProfile_objects : list M3UAccountProfile.t;
  StreamProfile_objects : list StreamProfile.t;
  CoreSettings_objects : list CoreSettings.t;
  (** [template.format(userAgent=.., streamUrl=..)] *)
  str_format : string -> string -> string -> Result string;
  (** [subprocess.Popen(cmd, stdout=PIPE, stderr=PIPE)] *)
  Popen : list string -> Result Process
}.

(** [Model.objects.get(...)]: exactly one row, or an exception. *)
Definition objects_get {A} (model : string) (p : A -> bool) (rows : list A)
    : Result A :=
  match List.filter p rows with
  | [x] => Ok x
  | [] => Err (DoesNotExist model)
  | l => Err (MultipleObjectsReturned model (length l))
  end.

(** [a or b] on strings that may be [None]. *)
Definition str_or (a : option string) (b : string) : string :=
  match a with
  | Some EmptyString | None => b
  | Some s => s
  end.

(** [str.isspace] on one character, read as a code point below 256: the
    separators of [str.split()]. *)
Definition is_space (c : ascii) : bool :=
  let n := nat_of_ascii c in
  ((n =? 32) || ((9 <=? n) && (n <=? 13)) || ((28 <=? n) && (n <=? 31))
   || (n =? 133) || (n =? 160))%nat.

(** [str.split()]: the maximal runs of non-whitespace characters. *)
Fixpoint split_ws (s : string) (word : string) : list string :=
  match s with
  | EmptyString =>
      match word with
      | EmptyString => []
      | _ => [word]
      end
  | String c s' =>
      if is_space c then
        match word with
        | EmptyString => split_ws s' EmptyString
        | _ => word :: split_ws s' EmptyString
        end
      else split_ws s' (word +:+ String c EmptyString)
  end.

Definition py_split (s : string) : list string := split_ws s EmptyString.

(** Attribute access on a value that may be [None]. *)
Definition getattr {A B} (o : option A) (attr : string) (f : A -> B) : M B :=
  match o with
  | Some x => ret (f x)
  | None => raise (AttributeError "NoneType" attr)
  end.

(** ** stream_view, lines 63-101: choosing a profile and a slot *)

(** Line 83: [f"lock:{profile.id}:{stream_index}"] *)
Definition slot_key (profile_id stream_index : Z) : string :=
  "lock:" +:+ pretty profile_id +:+ ":" +:+ pretty stream_index.

(** Lines 80-92, the [while] loop; it runs at most [fuel] rounds and is
    started with as many as the loop condition allows. *)
Fixpoint slot_loop (fuel : nat) (profile_id max_streams stream_index : Z)
    (persistent_lock : option PersistentLock) : M (option PersistentLock) :=
  match fuel with
  | O => ret persistent_lock
  | S fuel' =>
      if stream_index <? max_streams then
        let stream_index := stream_index + 1 in
        let lock_key := slot_key profile_id stream_index in
        l <- PersistentLock_new lock_key 120 ;;
        ok <- acquire l ;;
        if negb ok then slot_loop fuel' profile_id max_streams stream_index None
        else ret (Some l)
      else ret persistent_lock
  end.

(** Lines 72-97, the [for] loop over [[default_profile] + profiles]. *)
Fixpoint profile_loop (env : Env) (ps : list (option M3UAccountProfile.t))
    (persistent_lock : option PersistentLock)
    : M (option M3UAccountProfile.t * option PersistentLock) :=
  match ps with
  | [] => ret (None, persistent_lock)
  | profile :: rest =>
      _ <- getattr profile "name" M3UAccountProfile.name ;;
      active <- getattr profile "is_active" M3UAccountProfile.is_active ;;
      if negb active then profile_loop env rest persistent_lock
      else
        max_streams <- getattr profile "max_streams" M3UAccountProfile.max_streams ;;
        profile_id <- getattr profile "id" M3UAccountProfile.id ;;
        persistent_lock <-
          slot_loop (Z.to_nat max_streams) profile_id max_streams 0 persistent_lock ;;
        match persistent_lock with
        | Some l =>
            active_profile <-
              lift (objects_get "M3UAccountProfile"
                      (fun q => M3UAccountProfile.id q =? profile_id)
                      (M3UAccountProfile_objects env)) ;;
            ret (Some active_profile, Some l)
        | None => profile_loop env rest None
        end
  end.

Definition scan_list (m3u_profiles : list M3UAccountProfile.t)
    : list (option M3UAccountProfile.t) :=
  let default_profile := List.find M3UAccountProfile.is_default m3u_profiles in
  let profiles :=
    List.filter (fun obj => negb (M3UAccountProfile.is_default obj)) m3u_profiles in
  default_profile :: map Some profiles.

Definition no_available_profiles : Response :=
  HttpResponseServerError "No available profiles for the stream".

Definition allocate (env : Env) (m3u_account : M3UAccount.t)
    : M (M3UAccountProfile.t * PersistentLock) :=
  let m3u_profiles := M3UAccount.profiles m3u_account in
  found <- profile_loop env (scan_list m3u_profiles) None ;;
  match found with
  | (Some active_profile, Some persistent_lock) =>
      ret (active_profile, persistent_lock)
  | _ => return_ no_available_profiles
  end.

(** ** stream_view, lines 103-131: the command to run *)

(** Lines 107 and 110, the URL rewriting step. *)
Definition safe_replace_pattern (replace_pattern : string) : Result string :=
  re_sub (Compiles dollar_digits) backslash_group1 replace_pattern.

Definition url_rewrite (search_pattern : Pattern)
    (replace_pattern input_url : string) : Result string :=
  match safe_replace_pattern replace_pattern with
  | Ok safe => re_sub search_pattern safe input_url
  | Err e => Err e
  end.

(** Lines 114-117 *)
Definition resolve_stream_profile (env : Env) (channel : Channel.t)
    : Result StreamProfile.t :=
  match Channel.stream_profile channel with
  | Some stream_profile => Ok stream_profile
  | None =>
      match objects_get "CoreSettings"
              (fun c => String.eqb (CoreSettings.key c) "default-stream-profile")
              (CoreSettings_objects env) with
      | Ok setting =>
          objects_get "StreamProfile"
            (fun sp => StreamProfile.id sp =? CoreSettings.value setting)
            (StreamProfile_objects env)
      | Err e => Err e
      end
  end.

Definition prepare (env : Env) (channel : Channel.t)
    (active_profile : M3UAccountProfile.t) (input_url : string)
    : M (list string) :=
  stream_url <-
    lift (url_rewrite (M3UAccountProfile.search_pattern active_profile)
            (M3UAccountProfile.replace_pattern active_profile) input_url) ;;
  stream_profile <- lift (resolve_stream_profile env channel) ;;
  let user_agent :=
    str_or (StreamProfile.user_agent stream_profile)
      (default "Mozilla/5.0" (DEFAULT_USER_AGENT env)) in
  parameters <-
    lift (str_format env (StreamProfile.parameters stream_profile)
            user_agent stream_url) ;;
  ret (StreamProfile.command stream_profile :: py_split parameters).

(** ** stream_view, lines 133-139: starting the process *)

Definition popen (env : Env) (cmd : list string) : M Process :=
  fun w =>
    match Popen env cmd with
    | Ok process => (Val process, emit (EvPopen cmd) w)
    | Err e => (Raised e, emit (EvPopen cmd) w)
    end.

Definition launch (env : Env) (cmd : list string)
    (persistent_lock : PersistentLock) : M Process :=
  try_except (popen env cmd)
    (fun e =>
       release persistent_lock ;;;
       return_ (HttpResponseServerError ("Error starting stream: " +:+ exc_str e))).

(** ** stream_view *)

Definition stream_generator (proc : Process) (s : Stream.t)
    (persistent_lock : PersistentLock) : Generator :=
  {| gen_proc := proc; gen_s := s; gen_lock := persistent_lock;
     gen_state := GenCreated |}.

(** Lines 39-139, the body of the outer [try]. *)
Definition stream_view_try (env : Env) (stream_id : Z)
    : M (Process * Stream.t * PersistentLock) :=
  _ <- match REDIS_HOST env with
       | Some host => ret host
       | None => raise (AttributeError "Settings" "REDIS_HOST")
       end ;;
  channel <-
    lift (objects_get "Channel"
            (fun c => Channel.channel_number c =? stream_id)
            (Channel_objects env)) ;;
  match Channel.streams channel with
  | [] => return_ (HttpResponseServerError "No stream found for this channel.")
  | stream :: _ =>
      let m3u_account := Stream.m3u_account stream in
      let input_url := str_or (Stream.custom_url stream) (Stream.url stream) in
      alloc <- allocate env m3u_account ;;
      let '(active_profile, persistent_lock) := alloc in
      cmd <- prepare env channel active_profile input_url ;;
      process <- launch env cmd persistent_lock ;;
      ret (process, stream, persistent_lock)
  end.

Definition stream_view (env : Env) (stream_id : Z) (w : World)
    : Response * World :=
  match stream_view_try env stream_id w with
  | (Val (process, stream, persistent_lock), w') =>
      (StreamingHttpResponse
         (stream_generator process stream persistent_lock) "video/MP2T", w')
  | (Raised e, w') =>
      (HttpResponseServerError ("Error preparing stream: " +:+ exc_str e), w')
  | (Returned r, w') => (r, w')
  end.

(** ** stream_generator, lines 145-159

    The consumer drives the generator object with [next], [close] and
    [throw]; each call runs the frame up to the next [yield] or to its end. *)
Inductive GenOp :=
| GenNext
| GenClose
| GenThrow (e : PyExc).

Inductive GenResult :=
| Yielded (chunk : list Byte.byte)
| StopIteration
| CloseReturned
| GenRaised (e : PyExc).

(** Line 154, [proc.terminate()] *)
Definition terminate (proc : Process) : M unit :=
  fun w =>
    match terminate_raises proc with
    | None => (Val tt, emit EvTerminate w)
    | Some e => (Raised e, emit EvTerminate w)
    end.

(** Lines 153-159, the [finally] block. *)
Definition gen_finally (g : Generator) : M unit :=
  try_except (terminate (gen_proc g)) (fun _ => ret tt) ;;;
  release (gen_lock g).

Definition gen_closed (g : Generator) : Generator :=
  {| gen_proc := gen_proc g; gen_s := gen_s g; gen_lock := gen_lock g;
     gen_state := GenClosed |}.

(** The frame leaves the [try] block: the [finally] block runs, then what
    was pending (the end of the generator, or an exception) goes on unless
    the block raised itself. *)
Definition gen_leave (g : Generator) (pending : GenResult) (w : World)
    : GenResult * Generator * World :=
  match gen_finally g w with
  | (Raised e, w') => (GenRaised e, gen_closed g, w')
  | (_, w') => (pending, gen_closed g, w')
  end.

(** Lines 147-151 from the top of the loop: one read, then [break] on an
    empty chunk or [yield]. *)
Definition gen_resume (g : Generator) (w : World)
    : GenResult * Generator * World :=
  let w1 := emit EvRead w in
  match stdout (gen_proc g) with
  | [] => gen_leave g StopIteration w1
  | ReadBytes [] :: _ => gen_leave g StopIteration w1
  | ReadBytes chunk :: rest =>
      (Yielded chunk,
       {| gen_proc := {| stdout := rest;
                         terminate_raises := terminate_raises (gen_proc g) |};
          gen_s := gen_s g; gen_lock := gen_lock g; gen_state := GenSuspended |},
       w1)
  | ReadRaises e :: _ => gen_leave g (GenRaised e) w1
  end.

Definition gen_step (op : GenOp) (g : Generator) (w : World)
    : GenResult * Generator * World :=
  match gen_state g, op with
  | GenCreated, GenNext => gen_resume g w
  | GenCreated, GenClose => (CloseReturned, gen_closed g, w)
  | GenCreated, GenThrow e => (GenRaised e, gen_closed g, w)
  | GenSuspended, GenNext => gen_resume g w
  | GenSuspended, GenClose => gen_leave g CloseReturned w
  | GenSuspended, GenThrow e => gen_leave g (GenRaised e) w
  | GenClosed, GenNext => (StopIteration, g, w)
  | GenClosed, GenClose => (CloseReturned, g, w)
  | GenClosed, GenThrow e => (GenRaised e, g, w)
  end.

(** What happens to a relay over its life: the consumer calls the
    generator, and between two calls time passes. *)
Inductive RelayStep :=
| Call (op : GenOp)
| Wait (d : nat).

Fixpoint relay (steps : list RelayStep) (g : Generator) (w : World)
    : list GenResult * Generator * World :=
  match steps with
  | [] => ([], g, w)
  | Wait d :: steps' => relay steps' g (tick d w)
  | Call op :: steps' =>
      let '(r, g1, w1) := gen_step op g w in
      let '(rs, g2, w2) := relay steps' g1 w1 in
      (r :: rs, g2, w2)
  end.

Definition is_yield (r : GenResult) : bool :=
  match r with
  | Yielded _ => true
  | _ => false
  end.

(** The events of a trace that are cleanup calls. *)
Definition is_cleanup_event (ev : Event) : bool :=
  match ev with
  | EvTerminate | EvRelease _ => true
  | _ => false
  end.

(** ** Clients of the lock store

    Independent request handlers share nothing but the store; each of
    their calls on it is one atomic step, and a schedule is any
    interleaving of such steps with the passing of time. *)
Inductive StoreStep :=
| Acquire (l : PersistentLock)
| Release (l : PersistentLock)
| Elapse (d : nat).

Definition store_step (s : StoreStep) (w : World) : World :=
  match s with
  | Acquire l => snd (acquire l w)
  | Release l => snd (release l w)
  | Elapse d => tick d w
  end.

Definition schedule (steps : list StoreStep) (w : World) : World :=
  fold_left (fun w s => store_step s w) steps w.

(** The successful acquisitions of [key] recorded in a trace. *)
Definition wins (key : string) (evs : list Event) : nat :=
  length (List.filter
            (fun ev =>
               match ev with
               | EvAcquire k true => String.eqb k key
               | _ => false
               end) evs).

Definition elapsed (steps : list StoreStep) : nat :=
  fold_right (fun s n => match s with Elapse d => (d + n)%nat | _ => n end) O steps.

Definition is_release_of (key : string) (s : StoreStep) : bool :=
  match s with
  | Release l => String.eqb (lock_key l) key
  | _ => false
  end.

(** ** The allocator in the words of the spec

    The candidate slots in the order the spec gives: the default profile
    first, then the others as listed, inactive profiles left out, and for
    each profile the indices 1 to [max_streams]. *)
Definition slots_of (p : M3UAccountProfile.t) : list (M3UAccountProfile.t * Z) :=
  map (fun i => (p, i)) (seqZ 1 (M3UAccountProfile.max_streams p)).

Definition candidates (d : M3UAccountProfile.t)
    (m3u_profiles : list M3UAccountProfile.t)
    : list (M3UAccountProfile.t * Z) :=
  flat_map slots_of
    (List.filter M3UAccountProfile.is_active
       (d :: List.filter (fun q => negb (M3UAccountProfile.is_default q))
               m3u_profiles)).

Definition candidate_key (c : M3UAccountProfile.t * Z) : string :=
  slot_key (M3UAccountProfile.id (fst c)) (snd c).

Definition slot_held (w : World) (c : M3UAccountProfile.t * Z) : bool :=
  held (lock_store w) (now w) (candidate_key c).

(** The world after failed attempts on [keys]: a token drawn and a refusal
    recorded for each, the store untouched. *)
Definition refused (keys : list string) (w : World) : World :=
  fold_left (fun w k => emit (EvAcquire k false) (bump_token w)) keys w.

(** The world after a successful attempt on [key]. *)
Definition granted (key : string) (w : World) : World :=
  emit (EvAcquire key true)
    (set_store
       (<[key := {| holder := next_token w; expires_at := (now w + 120)%nat |}]>
          (lock_store w))
       (bump_token w)).

(** ** The URL rewriter in the words of the spec *)


(** Every [$] that a digit follows becomes a backslash. *)
Fixpoint dollar_to_backslash (s : string) : string :=
  match s with
  | EmptyString => EmptyString
  | String c s' =>
      let c' :=
        match s' with
        | String d _ => if (c =? "$")%char && is_digit d then "\"%char else c
        | EmptyString => c
        end in
      String c' (dollar_to_backslash s')
  end.

(** The length of the run of digits that [s] starts with. *)
Fixpoint digit_run (s : string) : nat :=
  match s with
  | String d s' => if is_digit d then S (digit_run s') else O
  | EmptyString => O
  end.

(** [s[k:]] *)
Fixpoint skip_chars (k : nat) (s : string) : string :=
  match k, s with
  | S k', String _ s' => skip_chars k' s'
  | _, _ => s
  end.

(** The template that [backslash_group1] parses to. *)
Definition backslash_then_group1 : list TemplateItem := [TChar "\"; TRef 1].

(** Two continuations agree on what can follow a match that starts at
    offset [pos] of a text whose rest is [s]. *)
Definition agree_after {R} (s : string) (pos : nat) (k k' : kont R) : Prop :=
  forall p' s' c',
    (String.length s' <= String.length s)%nat ->
    (p' + String.length s' = pos + String.length s)%nat ->
    k p' s' c' = k' p' s' c'.

(** The replacement is one that [re.sub] accepts for the pattern. *)
Definition valid_template (r : regex) (repl : string) : bool :=
  negb (has_backslash repl) ||
  match parse_template (groups r) 0 repl with
  | Ok _ => true
  | Err _ => false
  end.

Fixpoint no_char (c : ascii) (s : string) : bool :=
  match s with
  | EmptyString => true
  | String x s' => negb (x =? c)%char && no_char c s'
  end.

(** A text that holds neither [$] nor a backslash, so that neither step of
    the rewriting reads anything into it. *)
Definition plain (s : string) : bool := no_char "$" s && no_char "\" s.

Definition starts_with_digit (s : string) : bool :=
  match s with
  | String d _ => is_digit d
  | EmptyString => false
  end.



(** The leftmost match that starts at offset [pos] or later, [s] being the
    text from [pos] on; with [must_advance] a match at [pos] itself has to
    consume something. *)
Definition next_match (r : regex) (pos : nat) (s : string) (must_advance : bool)
    : option Match :=
  match match_at r pos s must_advance with
  | Some m => Some m
  | None =>
      match s with
      | String _ s' => search r (S pos) s'
      | EmptyString => None
      end
  end.

(** [every_match_replaced r repl pos must_advance s out]: [out] is [s], the
    text from offset [pos] on, with every match of [r] replaced.  The
    matches are taken from left to right, each the leftmost one that starts
    where the one before ended or later; the text between two matches is
    kept and [repl m] stands where the match [m] was.  After an empty match
    the next one may start at the same offset but then has to consume
    something. *)
Inductive every_match_replaced (r : regex) (repl : Match -> string)
    : nat -> bool -> string -> string -> Prop :=
| replaced_none pos must_advance s :
    next_match r pos s must_advance = None ->
    every_match_replaced r repl pos must_advance s s
| replaced_match pos must_advance s m out :
    next_match r pos s must_advance = Some m ->
    every_match_replaced r repl (m_end m) (m_end m =? m_start m)%nat
      (skip_chars (m_end m - pos) s) out ->
    every_match_replaced r repl pos must_advance s
      (substring 0 (m_start m - pos) s +:+ repl m +:+ out).

(** ** A concrete request: the scenario of section 8 of the spec

    Channel 101 has one stream with URL [http://src/live/1]; the account has
    one default, active profile with one slot, search pattern [.*] and
    replace pattern [$1proxy]; the playback profile runs [ffmpeg]. *)
Module Scenario.

(** A stand-in for [str.format] that fills the two named fields. *)
Fixpoint fill (fuel : nat) (template user_agent stream_url : string) : string :=
  match fuel with
  | O => template
  | S fuel' =>
      match template with
      | EmptyString => EmptyString
      | String c rest =>
          if String.prefix "{userAgent}" template
          then user_agent +:+ fill fuel' (substring 11 (String.length template) template)
                                user_agent stream_url
          else if String.prefix "{streamUrl}" template
          then stream_url +:+ fill fuel' (substring 11 (String.length template) template)
                                user_agent stream_url
          else String c (fill fuel' rest user_agent stream_url)
      end
  end.

Definition format (template user_agent stream_url : string) : Result string :=
  Ok (fill (String.length template) template user_agent stream_url).

Definition profile (search : Pattern) (replace : string) : M3UAccountProfile.t :=
  {| M3UAccountProfile.id := 1; M3UAccountProfile.name := "default";
     M3UAccountProfile.is_default := true; M3UAccountProfile.is_active := true;
     M3UAccountProfile.max_streams := 1;
     M3UAccountProfile.search_pattern := search;
     M3UAccountProfile.replace_pattern := replace |}.

Definition account (ps : list M3UAccountProfile.t) : M3UAccount.t :=
  {| M3UAccount.id := 1; M3UAccount.name := "provider"; M3UAccount.profiles := ps |}.

Definition stream (ps : list M3UAccountProfile.t) : Stream.t :=
  {| Stream.id := 7; Stream.name := "live"; Stream.url := "http://src/live/1";
     Stream.custom_url := None; Stream.m3u_account := account ps |}.

Definition ffmpeg : StreamProfile.t :=
  {| StreamProfile.id := 1; StreamProfile.profile_name := "ffmpeg";
     StreamProfile.command := "ffmpeg";
     StreamProfile.parameters := "-user_agent {userAgent} -i {streamUrl} -f mpegts -";
     StreamProfile.user_agent := None |}.

Definition channel (ps : list M3UAccountProfile.t) : Channel.t :=
  {| Channel.id := 5; Channel.channel_number := 101; Channel.channel_name := "News";
     Channel.streams := [stream ps]; Channel.stream_profile := Some ffmpeg |}.

Definition process : Process :=
  {| stdout := [ReadBytes [Byte.x47; Byte.x40]; ReadBytes [Byte.x47]];
     terminate_raises := None |}.

Definition env (ps : list M3UAccountProfile.t) (run : list string -> Result Process)
    : Env :=
  {| REDIS_HOST := Some "localhost"; DEFAULT_USER_AGENT := None;
     Channel_objects := [channel ps]; M3UAccountProfile_objects := ps;
     StreamProfile_objects := [ffmpeg]; CoreSettings_objects := [];
     str_format := format; Popen := run |}.

Definition world : World :=
  {| lock_store := ∅; now := 1000%nat; redis_up := true; next_token := O;
     trace := [] |}.

(** [.*] as the spec has it, without a group. *)
Definition any_text : regex := Star (Cls not_newline).

(** [(live)] *)
Definition live_group : regex :=
  Group 1 (Seq (Chr "l") (Seq (Chr "i") (Seq (Chr "v") (Chr "e")))).

Definition spec_profile : M3UAccountProfile.t := profile (Compiles any_text) "$1proxy".
Definition live_profile : M3UAccountProfile.t := profile (Compiles live_group) "$1proxy".

Definition starts (cmd : list string) : Result Process := Ok process.
Definition fails_to_start (cmd : list string) : Result Process :=
  Err (OtherException "FileNotFoundError"
         "[Errno 2] No such file or directory: 'ffmpeg'").

(** A second, non-default profile with two slots, and an inactive one. *)
Definition backup : M3UAccountProfile.t :=
  {| M3UAccountProfile.id := 2; M3UAccountProfile.name := "backup";
     M3UAccountProfile.is_default := false; M3UAccountProfile.is_active := true;
     M3UAccountProfile.max_streams := 2;
     M3UAccountProfile.search_pattern := Compiles live_group;
     M3UAccountProfile.replace_pattern := "$1proxy" |}.

Definition retired : M3UAccountProfile.t :=
  {| M3UAccountProfile.id := 3; M3UAccountProfile.name := "retired";
     M3UAccountProfile.is_default := false; M3UAccountProfile.is_active := false;
     M3UAccountProfile.max_streams := 4;
     M3UAccountProfile.search_pattern := Compiles live_group;
     M3UAccountProfile.replace_pattern := "$1proxy" |}.

Definition three_profiles : list M3UAccountProfile.t :=
  [retired; backup; live_profile].

(** Another request holds the only slot of the default profile. *)
Definition busy_world : World :=
  {| lock_store := {[ "lock:1:1" := {| holder := 41; expires_at := 1100%nat |} ]};
     now := 1000%nat; redis_up := true; next_token := 42%nat; trace := [] |}.

(** Every active slot is held. *)
Definition full_world : World :=
  {| lock_store :=
       {[ "lock:1:1" := {| holder := 41; expires_at := 1100%nat |};
          "lock:2:1" := {| holder := 42; expires_at := 1090%nat |};
          "lock:2:2" := {| holder := 43; expires_at := 1080%nat |} ]};
     now := 1000%nat; redis_up := true; next_token := 44%nat; trace := [] |}.

Definition ffmpeg_cmd : list string :=
  ["ffmpeg"; "-user_agent"; "Mozilla/5.0"; "-i"; "http://src/liveproxy/1";
   "-f"; "mpegts"; "-"].

(** A process that is gone when [terminate()] is called. *)
Definition gone_process : Process :=
  {| stdout := [ReadBytes [Byte.x47; Byte.x40]; ReadBytes [Byte.x47]];
     terminate_raises := Some (OtherException "ProcessLookupError"
                                 "[Errno 3] No such process") |}.

Definition watching : list RelayStep :=
  [Call GenNext; Wait 200; Call GenNext; Call GenClose].

(** Three handlers racing for the same slot, and one at work elsewhere. *)
Definition first_client : PersistentLock :=
  {| lock_key := "lock:1:1"; lock_timeout := 120; lock_token := 1 |}.
Definition second_client : PersistentLock :=
  {| lock_key := "lock:1:1"; lock_timeout := 120; lock_token := 2 |}.
Definition third_client : PersistentLock :=
  {| lock_key := "lock:1:1"; lock_timeout := 120; lock_token := 3 |}.
Definition elsewhere : PersistentLock :=
  {| lock_key := "lock:2:1"; lock_timeout := 120; lock_token := 4 |}.

Definition race : list StoreStep :=
  [Acquire second_client; Acquire elsewhere; Acquire first_client; Elapse 30;
   Acquire third_client; Release elsewhere; Elapse 80; Acquire first_client].

(** A URL in which [(live)] finds nothing. *)
Definition vod_url : string := "http://src/vod/1".

(** [x], a pattern without a group. *)
Definition letter_x : regex := Chr "x".

(** A channel to which no stream is attached yet. *)
Definition empty_channel : Channel.t :=
  {| Channel.id := 6; Channel.channel_number := 103; Channel.channel_name := "Soon";
     Channel.streams := []; Channel.stream_profile := Some ffmpeg |}.

Definition env_with (channels : list Channel.t) (host : option string) : Env :=
  {| REDIS_HOST := host; DEFAULT_USER_AGENT := None;
     Channel_objects := channels; M3UAccountProfile_objects := [live_profile];
     StreamProfile_objects := [ffmpeg]; CoreSettings_objects := [];
     str_format := format; Popen := starts |}.

(** A second profile flagged as default, with a free slot. *)
Definition second_default : M3UAccountProfile.t :=
  {| M3UAccountProfile.id := 4; M3UAccountProfile.name := "also default";
     M3UAccountProfile.is_default := true; M3UAccountProfile.is_active := true;
     M3UAccountProfile.max_streams := 5;
     M3UAccountProfile.search_pattern := Compiles live_group;
     M3UAccountProfile.replace_pattern := "$1proxy" |}.

End Scenario.

(** ** Vocabulary of the statements *)

(** The candidates refused before the first free one, and that one. *)
Fixpoint first_free {A} (h : A -> bool) (l : list A) : list A * option A :=
  match l with
  | [] => ([], None)
  | c :: l' =>
      if h c then (c :: fst (first_free h l'), snd (first_free h l'))
      else ([], Some c)
  end.

(** The keys the slot loop has still to try when it stands at
    [stream_index]. *)
Definition slot_keys (profile_id max_streams stream_index : Z) : list string :=
  map (slot_key profile_id) (seqZ (stream_index + 1) (max_streams - stream_index)).

(** The handle that line 84 makes in world [w]. *)
Definition lock_for (key : string) (w : World) : PersistentLock :=
  {| lock_key := key; lock_timeout := 120; lock_token := next_token w |}.

(** What the profile loop comes to on a list of profiles: the first free
    candidate slot, read back from the table, after a refusal for every
    candidate before it. *)
Definition scan_result (env : Env) (cands : list (M3UAccountProfile.t * Z))
    (w : World)
    : Outcome (option M3UAccountProfile.t * option PersistentLock) * World :=
  let ff := first_free (slot_held w) cands in
  let w1 := refused (map candidate_key (fst ff)) w in
  match snd ff with
  | Some c =>
      match objects_get "M3UAccountProfile"
              (fun q => M3UAccountProfile.id q =? M3UAccountProfile.id (fst c))
              (M3UAccountProfile_objects env) with
      | Ok q => (Val (Some q, Some (lock_for (candidate_key c) w1)),
                 granted (candidate_key c) w1)
      | Err e => (Raised e, granted (candidate_key c) w1)
      end
  | None => (Val (None, None), w1)
  end.

(** A step of a live generator either yields after one read and stays
    suspended with the same lock, or runs the [finally] block and closes. *)
Inductive step_shape (g : Generator) (w : World)
    : GenResult * Generator * World -> Prop :=
| shape_yield chunk g1 :
    gen_state g1 = GenSuspended -> gen_lock g1 = gen_lock g ->
    terminate_raises (gen_proc g1) = terminate_raises (gen_proc g) ->
    step_shape g w (Yielded chunk, g1, emit EvRead w)
| shape_leave r w0 :
    is_yield r = false ->
    (w0 = w \/ w0 = emit EvRead w) ->
    step_shape g w
      (r, gen_closed g, snd (release (gen_lock g) (emit EvTerminate w0))).

(** Steps 1 and 2 of the orchestrator succeed: the settings name the Redis
    host, the channel number finds one channel, and [stream] is its first
    stream. *)
Definition resolves (env : Env) (stream_id : Z) (channel : Channel.t)
    (stream : Stream.t) : Prop :=
  is_Some (REDIS_HOST env) /\
  objects_get "Channel" (fun c => Channel.channel_number c =? stream_id)
    (Channel_objects env) = Ok channel /\
  head (Channel.streams channel) = Some stream.

(** [M3UAccountProfile.objects.get(id=p.id)] reads back the row [p]. *)
Definition stored (env : Env) (p : M3UAccountProfile.t) : Prop :=
  objects_get "M3UAccountProfile"
    (fun q => M3UAccountProfile.id q =? M3UAccountProfile.id p)
    (M3UAccountProfile_objects env) = Ok p.

Definition input_url_of (stream : Stream.t) : string :=
  str_or (Stream.custom_url stream) (Stream.url stream).

(** The first call the consumer makes on the generator. *)
Fixpoint first_call (steps : list RelayStep) : option GenOp :=
  match steps with
  | [] => None
  | Wait _ :: steps' => first_call steps'
  | Call op :: _ => Some op
  end.

(** The same generator over a process whose [terminate()] succeeds. *)
Definition terminating_quietly (g : Generator) : Generator :=
  {| gen_proc := {| stdout := stdout (gen_proc g); terminate_raises := None |};
     gen_s := gen_s g; gen_lock := gen_lock g; gen_state := gen_state g |}.


(** The no-match passthrough as section 8 of the spec words it, for any
    replace pattern. *)
Definition passthrough_for_any_replace : Prop :=
  forall (r : regex) (replace_pattern input_url : string),
    search r 0 input_url = None ->
    url_rewrite (Compiles r) replace_pattern input_url = Ok input_url.

(** A request for an account without a default profile fails on reading
    [is_active] of [None]. *)
Definition fails_on_is_active_of_None : Prop :=
  forall env stream_id channel stream w,
    resolves env stream_id channel stream ->
    List.find M3UAccountProfile.is_default
      (M3UAccount.profiles (Stream.m3u_account stream)) = None ->
    stream_view_try env stream_id w
      = (Raised (AttributeError "NoneType" "is_active"), w).

(** ** Vocabulary of the further statements *)

(** What a request adds to the trace once the refused attempts are past:
    nothing, a lock, a lock and a process, or a lock, a process that did
    not start and the release of that lock. *)
Inductive request_tail : list Event -> Prop :=
| tail_nothing : request_tail []
| tail_lock k : request_tail [EvAcquire k true]
| tail_process k cmd : request_tail [EvAcquire k true; EvPopen cmd]
| tail_released k cmd :
    request_tail [EvAcquire k true; EvPopen cmd; EvRelease k].

(** How the reads of a process end the iteration: no bytes (the script is
    over or holds an empty chunk) stop it, a raising read raises; a chunk
    with bytes does not end it. *)
Definition ending (outs : list ReadOutcome) : option GenResult :=
  match outs with
  | [] | ReadBytes [] :: _ => Some StopIteration
  | ReadRaises e :: _ => Some (GenRaised e)
  | ReadBytes (_ :: _) :: _ => None
  end.

Definition has_bytes (chunk : list Byte.byte) : bool :=
  match chunk with
  | [] => false
  | _ :: _ => true
  end.

(** An argument as [str.split()] leaves it: not empty, no whitespace. *)
Definition is_word (a : string) : bool :=
  match a with
  | EmptyString => false
  | _ => forallb (fun c => negb (is_space c)) (list_ascii_of_string a)
  end.

(** [words_of s args]: [args] are the words of [s], read from the left:
    whitespace is passed over, and a word is a run of other characters that
    ends at whitespace or with the text. *)
Inductive words_of : string -> list string -> Prop :=
| words_end : words_of EmptyString []
| words_space c s args :
    is_space c = true -> words_of s args -> words_of (String c s) args
| words_last word :
    is_word word = true -> words_of word [word]
| words_next word c s args :
    is_word word = true -> is_space c = true -> words_of s args ->
    words_of (word +:+ String c s) (word :: args).

(** The pattern [.*] *)
Definition catch_all : regex := Star (Cls not_newline).

Definition single_line (s : string) : bool :=
  forallb not_newline (list_ascii_of_string s).

(** * Facts *)

(** ** Worlds *)

Lemma set_store_same (w : World) : set_store (lock_store w) w = w.
Proof. destruct w; reflexivity. Qed.

Lemma refused_cons k ks w :
  refused (k :: ks) w = refused ks (emit (EvAcquire k false) (bump_token w)).
Proof. reflexivity. Qed.

Lemma refused_app ks1 ks2 w : refused (ks1 ++ ks2) w = refused ks2 (refused ks1 w).
Proof. unfold refused. apply fold_left_app. Qed.

Lemma refused_frame ks w :
  lock_store (refused ks w) = lock_store w /\
  now (refused ks w) = now w /\
  redis_up (refused ks w) = redis_up w /\
  trace (refused ks w) = trace w ++ map (fun k => EvAcquire k false) ks.
Proof.
  revert w. induction ks as [|k ks IH]; intros w.
  - cbn. rewrite app_nil_r. auto.
  - rewrite refused_cons. destruct (IH (emit (EvAcquire k false) (bump_token w)))
      as (Hs & Hn & Hr & Ht).
    rewrite Hs, Hn, Hr, Ht. cbn. rewrite <- app_assoc. auto.
Qed.

Lemma refused_held ks w key :
  held (lock_store (refused ks w)) (now (refused ks w)) key
  = held (lock_store w) (now w) key.
Proof. destruct (refused_frame ks w) as (-> & -> & _). reflexivity. Qed.

Lemma granted_frame key w :
  lock_store (granted key w)
    = <[key := {| holder := next_token w; expires_at := (now w + 120)%nat |}]>
        (lock_store w) /\
  now (granted key w) = now w /\
  redis_up (granted key w) = redis_up w /\
  trace (granted key w) = trace w ++ [EvAcquire key true].
Proof. auto. Qed.

(** ** One attempt on a slot: lines 83-87 *)

Lemma attempt_refused {B} key (f : PersistentLock -> bool -> M B) w :
  redis_up w = true ->
  held (lock_store w) (now w) key = true ->
  (l <- PersistentLock_new key 120 ;; ok <- acquire l ;; f l ok) w
  = f (lock_for key w) false (refused [key] w).
Proof.
  intros Hup Hheld. unfold bind, PersistentLock_new, acquire, set_if_absent.
  cbn. rewrite Hup, Hheld. cbn. reflexivity.
Qed.

Lemma attempt_granted {B} key (f : PersistentLock -> bool -> M B) w :
  redis_up w = true ->
  held (lock_store w) (now w) key = false ->
  (l <- PersistentLock_new key 120 ;; ok <- acquire l ;; f l ok) w
  = f (lock_for key w) true (granted key w).
Proof.
  intros Hup Hheld. unfold bind, PersistentLock_new, acquire, set_if_absent.
  cbn. rewrite Hup, Hheld. reflexivity.
Qed.

(** ** The scan in list form *)

Lemma first_free_app {A} (h : A -> bool) l1 l2 :
  first_free h (l1 ++ l2)
  = match snd (first_free h l1) with
    | Some c => first_free h l1
    | None => (fst (first_free h l1) ++ fst (first_free h l2),
               snd (first_free h l2))
    end.
Proof.
  induction l1 as [|c l1 IH]; cbn.
  - destruct (first_free h l2); reflexivity.
  - destruct (h c); [|reflexivity]. rewrite IH.
    destruct (first_free h l1) as [pre [x|]]; reflexivity.
Qed.

Lemma first_free_map {A B} (f : A -> B) (h : B -> bool) l :
  first_free h (map f l)
  = (map f (fst (first_free (fun a => h (f a)) l)),
     f <$> snd (first_free (fun a => h (f a)) l)).
Proof.
  induction l as [|a l IH]; cbn; [reflexivity|].
  destruct (h (f a)); [|reflexivity]. rewrite IH. reflexivity.
Qed.

Lemma first_free_found {A} (h : A -> bool) pre c post :
  Forall (fun a => h a = true) pre -> h c = false ->
  first_free h (pre ++ c :: post) = (pre, Some c).
Proof.
  intros Hpre Hc. induction Hpre as [|a pre Ha _ IH]; cbn.
  - rewrite Hc. reflexivity.
  - rewrite Ha, IH. reflexivity.
Qed.

Lemma first_free_none {A} (h : A -> bool) l :
  Forall (fun a => h a = true) l -> first_free h l = (l, None).
Proof.
  intros Hl. induction Hl as [|a l Ha _ IH]; cbn; [reflexivity|].
  rewrite Ha, IH. reflexivity.
Qed.

Lemma first_free_ext {A} (h1 h2 : A -> bool) l :
  (forall a, h1 a = h2 a) -> first_free h1 l = first_free h2 l.
Proof.
  intros E. induction l as [|a l IH]; cbn; [reflexivity|].
  rewrite E, IH. reflexivity.
Qed.

(** ** The slot loop *)

Lemma slot_keys_done pid max idx : max <= idx -> slot_keys pid max idx = [].
Proof. intros H. unfold slot_keys. rewrite seqZ_nil by lia. reflexivity. Qed.

Lemma slot_keys_next pid max idx :
  idx < max ->
  slot_keys pid max idx = slot_key pid (idx + 1) :: slot_keys pid max (idx + 1).
Proof.
  intros H. unfold slot_keys. rewrite seqZ_cons by lia. cbn.
  do 3 f_equal; lia.
Qed.

(** The loop refuses the held keys in turn and stops at the first free
    one; the rounds it is given are the rounds the condition allows. *)
Lemma slot_loop_scan pid max :
  forall n idx pl w,
    redis_up w = true ->
    n = Z.to_nat (max - idx) ->
    slot_loop n pid max idx pl w
    = let ff := first_free (held (lock_store w) (now w)) (slot_keys pid max idx) in
      let w1 := refused (fst ff) w in
      match snd ff with
      | Some k => (Val (Some (lock_for k w1)), granted k w1)
      | None => (Val (match n with O => pl | S _ => None end), w1)
      end.
Proof.
  induction n as [|n IH]; intros idx pl w Hup Hn.
  - rewrite slot_keys_done by lia. reflexivity.
  - assert (idx < max) as Hlt by lia.
    rewrite slot_keys_next by lia. cbn [slot_loop].
    apply Z.ltb_lt in Hlt as Hb. rewrite Hb.
    cbn [first_free].
    destruct (held (lock_store w) (now w) (slot_key pid (idx + 1))) eqn:Hheld.
    + rewrite attempt_refused by assumption. cbn [negb fst snd].
      rewrite IH by (cbn; auto; lia).
      rewrite (first_free_ext _ (held (lock_store w) (now w)))
        by (intros a; apply (refused_held [_])).
      cbn zeta. rewrite refused_cons.
      destruct (snd (first_free _ (slot_keys pid max (idx + 1)))); [reflexivity|].
      destruct n; reflexivity.
    + rewrite attempt_granted by assumption. reflexivity.
Qed.

(** ** The monad *)

Lemma bind_val {A B} (m : M A) (f : A -> M B) w a w' :
  m w = (Val a, w') -> bind m f w = f a w'.
Proof. intros H. unfold bind. rewrite H. reflexivity. Qed.

Lemma bind_raised {A B} (m : M A) (f : A -> M B) w e w' :
  m w = (Raised e, w') -> bind m f w = (Raised e, w').
Proof. intros H. unfold bind. rewrite H. reflexivity. Qed.

Lemma bind_returned {A B} (m : M A) (f : A -> M B) w r w' :
  m w = (Returned r, w') -> bind m f w = (Returned r, w').
Proof. intros H. unfold bind. rewrite H. reflexivity. Qed.

Lemma lift_pure {A} (r : Result A) w :
  lift r w = (match r with Ok a => Val a | Err e => Raised e end, w).
Proof. destruct r; reflexivity. Qed.

(** ** The profile loop *)

Lemma first_free_in {A} (h : A -> bool) l c :
  snd (first_free h l) = Some c -> In c l /\ h c = false.
Proof.
  induction l as [|a l IH]; cbn; [discriminate|].
  destruct (h a) eqn:Ha; cbn.
  - intros H. destruct (IH H). auto.
  - intros [= <-]. auto.
Qed.

Lemma slots_of_fst p c : In c (slots_of p) -> fst c = p.
Proof.
  unfold slots_of. rewrite in_map_iff. intros (i & <- & _). reflexivity.
Qed.

Lemma slot_keys_slots_of p :
  slot_keys (M3UAccountProfile.id p) (M3UAccountProfile.max_streams p) 0
  = map candidate_key (slots_of p).
Proof.
  unfold slot_keys, slots_of. rewrite map_map, Z.sub_0_r. reflexivity.
Qed.

Lemma profile_loop_scan env :
  forall ps w,
    redis_up w = true ->
    profile_loop env (map Some ps) None w
    = scan_result env
        (flat_map slots_of (List.filter M3UAccountProfile.is_active ps)) w.
Proof.
  induction ps as [|p ps IH]; intros w Hup; [reflexivity|].
  cbn [map profile_loop getattr List.filter].
  rewrite (bind_val _ _ w _ w) by reflexivity.
  rewrite (bind_val _ _ w _ w) by reflexivity.
  destruct (M3UAccountProfile.is_active p) eqn:Hact; cbn [negb];
    [|apply IH; assumption].
  rewrite (bind_val _ _ w _ w) by reflexivity.
  rewrite (bind_val _ _ w _ w) by reflexivity.
  unfold scan_result. cbn [flat_map]. rewrite first_free_app.
  pose proof (slot_loop_scan (M3UAccountProfile.id p)
                (M3UAccountProfile.max_streams p)
                (Z.to_nat (M3UAccountProfile.max_streams p)) 0 None w Hup) as Hs.
  rewrite slot_keys_slots_of, first_free_map in Hs.
  cbn [fst snd] in Hs. cbn zeta in Hs.
  change (fun a => held (lock_store w) (now w) (candidate_key a))
    with (slot_held w) in Hs.
  specialize (Hs ltac:(f_equal; lia)).
  destruct (first_free (slot_held w) (slots_of p)) as [pre [c|]] eqn:Hff;
    cbn [fst snd fmap option_fmap option_map] in Hs |- *.
  - rewrite (bind_val _ _ _ _ _ Hs).
    assert (fst c = p) as ->.
    { apply slots_of_fst. eapply first_free_in. rewrite Hff. reflexivity. }
    unfold bind. rewrite lift_pure.
    destruct (objects_get _ _ _); reflexivity.
  - assert (slot_loop (Z.to_nat (M3UAccountProfile.max_streams p))
              (M3UAccountProfile.id p) (M3UAccountProfile.max_streams p) 0 None w
            = (Val None, refused (map candidate_key pre) w)) as Hs'.
    { rewrite Hs. destruct (Z.to_nat _); reflexivity. }
    rewrite (bind_val _ _ _ _ _ Hs').
    rewrite IH by (rewrite (proj1 (proj2 (proj2 (refused_frame _ w)))); apply Hup).
    unfold scan_result.
    rewrite (first_free_ext (slot_held (refused (map candidate_key pre) w))
               (slot_held w))
      by (intros a; apply refused_held).
    rewrite map_app, refused_app. reflexivity.
Qed.

(** ** Allocation, lines 63-101 *)

Lemma scan_list_default ps d :
  List.find M3UAccountProfile.is_default ps = Some d ->
  scan_list ps
  = map Some (d :: List.filter (fun q => negb (M3UAccountProfile.is_default q)) ps).
Proof. intros H. unfold scan_list. rewrite H. reflexivity. Qed.

Lemma allocate_scan env acct w d :
  redis_up w = true ->
  List.find M3UAccountProfile.is_default (M3UAccount.profiles acct) = Some d ->
  allocate env acct w
  = match scan_result env (candidates d (M3UAccount.profiles acct)) w with
    | (Val (Some p, Some l), w') => (Val (p, l), w')
    | (Val _, w') => (Returned no_available_profiles, w')
    | (Raised e, w') => (Raised e, w')
    | (Returned r, w') => (Returned r, w')
    end.
Proof.
  intros Hup Hd. unfold allocate, bind.
  rewrite (scan_list_default _ _ Hd), profile_loop_scan by assumption.
  unfold candidates.
  destruct (scan_result _ _ _) as [[[[q|] [l|]]|e|r] w']; reflexivity.
Qed.

Lemma allocate_no_default env acct w :
  List.find M3UAccountProfile.is_default (M3UAccount.profiles acct) = None ->
  allocate env acct w = (Raised (AttributeError "NoneType" "name"), w).
Proof. intros Hd. unfold allocate, scan_list. rewrite Hd. reflexivity. Qed.

Lemma allocate_val_inv env acct w p l w1 :
  redis_up w = true ->
  allocate env acct w = (Val (p, l), w1) ->
  exists pre c,
    l = lock_for (candidate_key c) (refused (map candidate_key pre) w) /\
    w1 = granted (candidate_key c) (refused (map candidate_key pre) w).
Proof.
  intros Hup.
  destruct (List.find M3UAccountProfile.is_default (M3UAccount.profiles acct))
    as [d|] eqn:Hd.
  - rewrite (allocate_scan _ _ _ _ Hup Hd). unfold scan_result.
    destruct (first_free _ _) as [pre [c|]]; cbn [fst snd].
    + destruct (objects_get _ _ _); [|discriminate].
      intros [= <- <- <-]. eauto.
    + discriminate.
  - rewrite (allocate_no_default _ _ _ Hd). discriminate.
Qed.

Lemma candidates_in d ps p i :
  List.find M3UAccountProfile.is_default ps = Some d ->
  In (p, i) (candidates d ps) ->
  In p ps /\ M3UAccountProfile.is_active p = true.
Proof.
  intros Hd. unfold candidates. rewrite in_flat_map.
  intros (q & Hq & Hpi). apply slots_of_fst in Hpi. cbn in Hpi. subst q.
  apply filter_In in Hq as [Hq Hact]. split; [|assumption].
  destruct Hq as [<-|Hq].
  - apply find_some in Hd. tauto.
  - apply filter_In in Hq. tauto.
Qed.

(** ** The request up to allocation *)

Lemma stream_view_try_resolved env stream_id channel stream w :
  resolves env stream_id channel stream ->
  stream_view_try env stream_id w
  = (alloc <- allocate env (Stream.m3u_account stream) ;;
     let '(active_profile, persistent_lock) := alloc in
     cmd <- prepare env channel active_profile (input_url_of stream) ;;
     process <- launch env cmd persistent_lock ;;
     ret (process, stream, persistent_lock)) w.
Proof.
  intros ([host Hhost] & Hch & Hst). unfold stream_view_try.
  rewrite Hhost. rewrite (bind_val _ _ w host w) by reflexivity.
  rewrite (bind_val _ _ w channel w) by (rewrite lift_pure, Hch; reflexivity).
  destruct (Channel.streams channel) as [|s rest]; [discriminate|].
  injection Hst as ->. reflexivity.
Qed.

(** Nothing in lines 103-131 touches the world. *)
Lemma prepare_pure env channel p url w :
  snd (prepare env channel p url w) = w.
Proof.
  unfold prepare, bind, lift, ret, raise.
  destruct (url_rewrite _ _ _); [|reflexivity].
  destruct (resolve_stream_profile _ _); [|reflexivity].
  destruct (str_format _ _ _ _); reflexivity.
Qed.

(** C5. Given an account with a default profile whose rows read back from
    the table, and a reachable store: the allocator tries the candidate
    slots in the order default profile first, then the other profiles as
    listed, inactive ones left out, indices 1 to max_streams increasing,
    one attempt each; it stops at the first slot that is free and returns
    that profile with the lock on that slot. *)
Theorem allocator_priority env acct w d pre p i post :
  redis_up w = true ->
  List.find M3UAccountProfile.is_default (M3UAccount.profiles acct) = Some d ->
  (forall q, In q (M3UAccount.profiles acct) -> stored env q) ->
  candidates d (M3UAccount.profiles acct) = pre ++ (p, i) :: post ->
  Forall (fun c => slot_held w c = true) pre ->
  slot_held w (p, i) = false ->
  let key := slot_key (M3UAccountProfile.id p) i in
  let w1 := refused (map candidate_key pre) w in
  allocate env acct w = (Val (p, lock_for key w1), granted key w1) /\
  M3UAccountProfile.is_active p = true /\
  trace (granted key w1)
  = trace w ++ map (fun c => EvAcquire (candidate_key c) false) pre
            ++ [EvAcquire key true].
Proof.
  intros Hup Hd Hrows Hc Hpre Hfree key w1.
  assert (In (p, i) (candidates d (M3UAccount.profiles acct))) as Hin
    by (rewrite Hc; apply in_elt).
  destruct (candidates_in _ _ _ _ Hd Hin) as [Hp Hact].
  split; [|split; [assumption|]].
  - rewrite (allocate_scan _ _ _ _ Hup Hd). unfold scan_result.
    rewrite Hc, (first_free_found _ _ _ _ Hpre Hfree). cbn [fst snd].
    rewrite (Hrows p Hp). reflexivity.
  - destruct (granted_frame key w1) as (_ & _ & _ & ->).
    subst w1. destruct (refused_frame (map candidate_key pre) w) as (_ & _ & _ & ->).
    rewrite map_map, <- app_assoc. reflexivity.
Qed.

(** C6. When every candidate slot is held (or no profile is active), the
    request is answered with the "No available profiles" server error, every
    attempt was refused, and the lock store is as it was. *)
Theorem allocator_exhaustion env stream_id channel stream w d :
  resolves env stream_id channel stream ->
  redis_up w = true ->
  List.find M3UAccountProfile.is_default
    (M3UAccount.profiles (Stream.m3u_account stream)) = Some d ->
  Forall (fun c => slot_held w c = true)
    (candidates d (M3UAccount.profiles (Stream.m3u_account stream))) ->
  let cands := candidates d (M3UAccount.profiles (Stream.m3u_account stream)) in
  let w' := refused (map candidate_key cands) w in
  stream_view env stream_id w
  = (HttpResponseServerError "No available profiles for the stream", w') /\
  lock_store w' = lock_store w /\
  trace w' = trace w ++ map (fun c => EvAcquire (candidate_key c) false) cands.
Proof.
  intros Hres Hup Hd Hall cands w'. split.
  - unfold stream_view. rewrite (stream_view_try_resolved _ _ _ _ _ Hres).
    erewrite bind_returned; [reflexivity|].
    rewrite (allocate_scan _ _ _ _ Hup Hd). unfold scan_result.
    rewrite (first_free_none _ _ Hall). reflexivity.
  - subst w'. destruct (refused_frame (map candidate_key cands) w)
      as (-> & _ & _ & ->).
    rewrite map_map. auto.
Qed.

(** C10 as amended. For an account without a default profile the loop
    starts on [None]; reading its [name] for the log line of line 73 raises,
    the outer handler answers "Error preparing stream", and the world is
    untouched: no lock was asked for and no process started. *)
Theorem no_default_profile_fails env stream_id channel stream w :
  resolves env stream_id channel stream ->
  List.find M3UAccountProfile.is_default
    (M3UAccount.profiles (Stream.m3u_account stream)) = None ->
  stream_view_try env stream_id w
  = (Raised (AttributeError "NoneType" "name"), w) /\
  stream_view env stream_id w
  = (HttpResponseServerError
       "Error preparing stream: 'NoneType' object has no attribute 'name'", w).
Proof.
  intros Hres Hd.
  assert (stream_view_try env stream_id w
          = (Raised (AttributeError "NoneType" "name"), w)) as H.
  { rewrite (stream_view_try_resolved _ _ _ _ _ Hres).
    erewrite bind_raised; [reflexivity|]. apply allocate_no_default, Hd. }
  split; [exact H|]. unfold stream_view. rewrite H. reflexivity.
Qed.

(** A concrete request resolves by evaluation. *)
Ltac scenario_resolves :=
  split; [eexists; reflexivity | split; vm_compute; reflexivity].

Lemma allocator_priority_witness :
  allocate (Scenario.env Scenario.three_profiles Scenario.starts)
    (Scenario.account Scenario.three_profiles) Scenario.busy_world
  = (Val (Scenario.backup,
          lock_for (slot_key 2 1) (refused ["lock:1:1"] Scenario.busy_world)),
     granted (slot_key 2 1) (refused ["lock:1:1"] Scenario.busy_world)) /\
  M3UAccountProfile.is_active Scenario.backup = true /\
  trace (granted (slot_key 2 1) (refused ["lock:1:1"] Scenario.busy_world))
  = trace Scenario.busy_world ++ [EvAcquire "lock:1:1" false]
      ++ [EvAcquire (slot_key 2 1) true].
Proof.
  apply (allocator_priority
           (Scenario.env Scenario.three_profiles Scenario.starts)
           (Scenario.account Scenario.three_profiles) Scenario.busy_world
           Scenario.live_profile [(Scenario.live_profile, 1)]
           Scenario.backup 1 [(Scenario.backup, 2)]).
  - reflexivity.
  - reflexivity.
  - intros q [<-|[<-|[<-|[]]]]; vm_compute; reflexivity.
  - vm_compute; reflexivity.
  - repeat constructor.
  - vm_compute; reflexivity.
Defined.

Lemma allocator_exhaustion_witness :
  stream_view (Scenario.env Scenario.three_profiles Scenario.starts) 101
    Scenario.full_world
  = (HttpResponseServerError "No available profiles for the stream",
     refused (map candidate_key
                (candidates Scenario.live_profile Scenario.three_profiles))
       Scenario.full_world) /\
  lock_store
    (refused (map candidate_key
                (candidates Scenario.live_profile Scenario.three_profiles))
       Scenario.full_world)
  = lock_store Scenario.full_world /\
  trace
    (refused (map candidate_key
                (candidates Scenario.live_profile Scenario.three_profiles))
       Scenario.full_world)
  = trace Scenario.full_world
      ++ map (fun c => EvAcquire (candidate_key c) false)
           (candidates Scenario.live_profile Scenario.three_profiles).
Proof.
  apply (allocator_exhaustion
           (Scenario.env Scenario.three_profiles Scenario.starts) 101
           (Scenario.channel Scenario.three_profiles)
           (Scenario.stream Scenario.three_profiles)
           Scenario.full_world Scenario.live_profile).
  - scenario_resolves.
  - reflexivity.
  - reflexivity.
  - vm_compute. repeat constructor.
Defined.

Lemma no_default_profile_fails_witness :
  stream_view_try (Scenario.env [Scenario.backup] Scenario.starts) 101
    Scenario.world
  = (Raised (AttributeError "NoneType" "name"), Scenario.world) /\
  stream_view (Scenario.env [Scenario.backup] Scenario.starts) 101 Scenario.world
  = (HttpResponseServerError
       "Error preparing stream: 'NoneType' object has no attribute 'name'",
     Scenario.world).
Proof.
  apply (no_default_profile_fails
           (Scenario.env [Scenario.backup] Scenario.starts) 101
           (Scenario.channel [Scenario.backup])
           (Scenario.stream [Scenario.backup]) Scenario.world).
  - scenario_resolves.
  - reflexivity.
Defined.

(** C10 as stated fails: with one active, non-default profile the exception
    is the one for [name], raised on line 73 before line 74 reads
    [is_active]. *)
Lemma is_active_is_not_the_attribute : ~ fails_on_is_active_of_None.
Proof.
  intros H.
  specialize (H (Scenario.env [Scenario.backup] Scenario.starts) 101
                (Scenario.channel [Scenario.backup])
                (Scenario.stream [Scenario.backup]) Scenario.world).
  assert (resolves (Scenario.env [Scenario.backup] Scenario.starts) 101
            (Scenario.channel [Scenario.backup])
            (Scenario.stream [Scenario.backup])) as Hres.
  { scenario_resolves. }
  specialize (H Hres eq_refl).
  vm_compute in H. discriminate H.
Qed.

(** ** After the lock: lines 103-143 *)

Lemma granted_entry key w :
  lock_store (granted key w) !! key
  = Some {| holder := next_token w; expires_at := (now w + 120)%nat |}.
Proof. cbn. apply lookup_insert_eq. Qed.

(** What a successful allocation leaves: the handle owns its key until 120
    time units from now. *)
Lemma allocate_holds env acct w p l w1 :
  redis_up w = true ->
  allocate env acct w = (Val (p, l), w1) ->
  lock_store w1 !! lock_key l
  = Some {| holder := lock_token l; expires_at := (now w + 120)%nat |} /\
  redis_up w1 = true /\ now w1 = now w.
Proof.
  intros Hup Ha.
  destruct (allocate_val_inv _ _ _ _ _ _ Hup Ha) as (pre & c & -> & ->).
  destruct (refused_frame (map candidate_key pre) w) as (_ & Hn & Hr & _).
  cbn [lock_for lock_key lock_token]. rewrite granted_entry, Hn.
  split; [reflexivity|]. split; cbn; congruence.
Qed.

Lemma release_owned l w e :
  redis_up w = true ->
  lock_store w !! lock_key l = Some e ->
  holder e = lock_token l ->
  lock_store (snd (release l w)) !! lock_key l = None.
Proof.
  intros Hup He Hh. cbn. rewrite Hup. unfold delete_if_owned.
  rewrite He, Hh, Nat.eqb_refl. apply lookup_delete_eq.
Qed.

(** C3. When the lock is held and the command is ready but Popen raises,
    [release] is called on the lock, after which the key is gone from the
    store, and the answer is the "Error starting stream" server error with
    the cause. *)
Theorem launch_failure_releases_lock env stream_id channel stream w p l w1 cmd e :
  resolves env stream_id channel stream ->
  redis_up w = true ->
  allocate env (Stream.m3u_account stream) w = (Val (p, l), w1) ->
  fst (prepare env channel p (input_url_of stream) w1) = Val cmd ->
  Popen env cmd = Err e ->
  let w' := snd (release l (emit (EvPopen cmd) w1)) in
  stream_view env stream_id w
  = (HttpResponseServerError ("Error starting stream: " +:+ exc_str e), w') /\
  trace w' = trace w1 ++ [EvPopen cmd; EvRelease (lock_key l)] /\
  is_Some (lock_store w1 !! lock_key l) /\
  lock_store w' !! lock_key l = None.
Proof.
  intros Hres Hup Ha Hp Hrun w'.
  destruct (allocate_holds _ _ _ _ _ _ Hup Ha) as (Hentry & Hup1 & _).
  assert (prepare env channel p (input_url_of stream) w1 = (Val cmd, w1)) as Hp'.
  { pose proof (prepare_pure env channel p (input_url_of stream) w1) as Hw.
    destruct (prepare _ _ _ _ _); cbn in *; congruence. }
  repeat split.
  - unfold stream_view. rewrite (stream_view_try_resolved _ _ _ _ _ Hres).
    rewrite (bind_val _ _ _ _ _ Ha). rewrite (bind_val _ _ _ _ _ Hp').
    unfold bind, launch, try_except, popen. rewrite Hrun. reflexivity.
  - subst w'. cbn. rewrite <- app_assoc. reflexivity.
  - rewrite Hentry. eexists; reflexivity.
  - subst w'. eapply release_owned; [exact Hup1|exact Hentry|reflexivity].
Qed.

Lemma launch_failure_releases_lock_witness :
  stream_view (Scenario.env [Scenario.live_profile] Scenario.fails_to_start) 101
    Scenario.world
  = (HttpResponseServerError
       ("Error starting stream: "
          +:+ exc_str (OtherException "FileNotFoundError"
                         "[Errno 2] No such file or directory: 'ffmpeg'")),
     snd (release (lock_for "lock:1:1" Scenario.world)
            (emit (EvPopen Scenario.ffmpeg_cmd)
               (granted "lock:1:1" Scenario.world)))) /\
  trace (snd (release (lock_for "lock:1:1" Scenario.world)
                (emit (EvPopen Scenario.ffmpeg_cmd)
                   (granted "lock:1:1" Scenario.world))))
  = trace (granted "lock:1:1" Scenario.world)
      ++ [EvPopen Scenario.ffmpeg_cmd;
          EvRelease (lock_key (lock_for "lock:1:1" Scenario.world))] /\
  is_Some (lock_store (granted "lock:1:1" Scenario.world)
             !! lock_key (lock_for "lock:1:1" Scenario.world)) /\
  lock_store (snd (release (lock_for "lock:1:1" Scenario.world)
                     (emit (EvPopen Scenario.ffmpeg_cmd)
                        (granted "lock:1:1" Scenario.world))))
    !! lock_key (lock_for "lock:1:1" Scenario.world) = None.
Proof.
  apply (launch_failure_releases_lock
           (Scenario.env [Scenario.live_profile] Scenario.fails_to_start) 101
           (Scenario.channel [Scenario.live_profile])
           (Scenario.stream [Scenario.live_profile]) Scenario.world
           Scenario.live_profile (lock_for "lock:1:1" Scenario.world)
           (granted "lock:1:1" Scenario.world) Scenario.ffmpeg_cmd
           (OtherException "FileNotFoundError"
              "[Errno 2] No such file or directory: 'ffmpeg'")).
  - scenario_resolves.
  - reflexivity.
  - vm_compute; reflexivity.
  - vm_compute; reflexivity.
  - reflexivity.
Defined.

(** The path C2 is about: once the lock is held, an exception raised by
    any step of lines 103-131 reaches the outer handler of lines 141-143,
    which answers and leaves the world as the allocation left it. *)
Lemma prepare_failure_keeps_lock env stream_id channel stream w p l w1 e :
  resolves env stream_id channel stream ->
  redis_up w = true ->
  allocate env (Stream.m3u_account stream) w = (Val (p, l), w1) ->
  fst (prepare env channel p (input_url_of stream) w1) = Raised e ->
  stream_view env stream_id w
  = (HttpResponseServerError ("Error preparing stream: " +:+ exc_str e), w1) /\
  held (lock_store w1) (now w1) (lock_key l) = true.
Proof.
  intros Hres Hup Ha Hp.
  destruct (allocate_holds _ _ _ _ _ _ Hup Ha) as (Hentry & _ & Hnow).
  assert (prepare env channel p (input_url_of stream) w1 = (Raised e, w1)) as Hp'.
  { pose proof (prepare_pure env channel p (input_url_of stream) w1) as Hw.
    destruct (prepare _ _ _ _ _); cbn in *; congruence. }
  split.
  - unfold stream_view. rewrite (stream_view_try_resolved _ _ _ _ _ Hres).
    rewrite (bind_val _ _ _ _ _ Ha). rewrite (bind_raised _ _ _ _ _ Hp').
    reflexivity.
  - unfold held. rewrite Hentry, Hnow. cbn. apply Nat.ltb_lt. lia.
Qed.

(** C2 fails on the scenario of section 8 of the spec itself: search [.*]
    has no group, so the escaped replacement [\1proxy] is rejected by
    [re.sub]; the answer is "Error preparing stream", [release] was never
    called, the key stays in the store, and the next request for the
    channel finds no slot. *)
Lemma spec_scenario_leaks_the_slot :
  let env := Scenario.env [Scenario.spec_profile] Scenario.starts in
  let answer := stream_view env 101 Scenario.world in
  fst answer
  = HttpResponseServerError
      "Error preparing stream: invalid group reference 1 at position 1" /\
  trace (snd answer) = [EvAcquire "lock:1:1" true] /\
  lock_store (snd answer) !! "lock:1:1"
  = Some {| holder := 0; expires_at := 1120 |} /\
  fst (stream_view env 101 (snd answer))
  = HttpResponseServerError "No available profiles for the stream".
Proof. vm_compute. auto. Qed.

(** ** The generator, lines 145-159 *)

Lemma gen_leave_spec g pending w :
  gen_leave g pending w
  = (pending, gen_closed g, snd (release (gen_lock g) (emit EvTerminate w))).
Proof.
  unfold gen_leave, gen_finally, bind, try_except, terminate.
  destruct (terminate_raises (gen_proc g)); reflexivity.
Qed.

Lemma gen_leave_trace g w :
  trace (snd (release (gen_lock g) (emit EvTerminate w)))
  = trace w ++ [EvTerminate; EvRelease (lock_key (gen_lock g))].
Proof. cbn. rewrite <- app_assoc. reflexivity. Qed.

Lemma gen_resume_shape g w : step_shape g w (gen_resume g w).
Proof.
  unfold gen_resume.
  destruct (stdout (gen_proc g)) as [|[[|b chunk]|e] rest];
    rewrite ?gen_leave_spec;
    try (apply shape_leave; [reflexivity|right; reflexivity]).
  apply shape_yield; reflexivity.
Qed.

Lemma gen_step_shape op g w :
  gen_state g = GenSuspended \/ (gen_state g = GenCreated /\ op = GenNext) ->
  step_shape g w (gen_step op g w).
Proof.
  unfold gen_step. intros [Hs|[Hs ->]]; rewrite Hs.
  - destruct op; rewrite ?gen_leave_spec;
      try (apply shape_leave; [reflexivity|left; reflexivity]).
    apply gen_resume_shape.
  - apply gen_resume_shape.
Qed.

Lemma relay_closed steps :
  forall g w,
    gen_state g = GenClosed ->
    snd (relay steps g w) = fold_left (fun w s =>
                                         match s with
                                         | Wait d => tick d w
                                         | Call _ => w
                                         end) steps w /\
    snd (fst (relay steps g w)) = g /\
    Forall (fun r => is_yield r = false) (fst (fst (relay steps g w))).
Proof.
  induction steps as [|[op|d] steps IH]; intros g w Hc; cbn [relay fold_left].
  - auto.
  - assert (gen_step op g w = (match op with
                               | GenNext => StopIteration
                               | GenClose => CloseReturned
                               | GenThrow e => GenRaised e
                               end, g, w)) as ->
      by (unfold gen_step; rewrite Hc; destruct op; reflexivity).
    destruct (IH g w Hc) as (H1 & H2 & H3).
    destruct (relay steps g w) as [[rs g2] w2]. cbn in *.
    repeat split; try assumption. constructor; [destruct op; reflexivity|assumption].
  - apply IH, Hc.
Qed.

Lemma waiting_trace steps w :
  trace (fold_left (fun w s => match s with
                               | Wait d => tick d w
                               | Call _ => w
                               end) steps w) = trace w /\
  lock_store (fold_left (fun w s => match s with
                                    | Wait d => tick d w
                                    | Call _ => w
                                    end) steps w) = lock_store w.
Proof.
  revert w. induction steps as [|[op|d] steps IH]; intros w; cbn; auto.
  destruct (IH (tick d w)) as [-> ->]. auto.
Qed.

Lemma relay_closed_trace steps g w :
  gen_state g = GenClosed ->
  trace (snd (relay steps g w)) = trace w /\
  gen_state (snd (fst (relay steps g w))) = GenClosed.
Proof.
  intros Hc. destruct (relay_closed steps g w Hc) as (-> & -> & _).
  split; [apply waiting_trace|assumption].
Qed.

Lemma relay_cleanup_from steps :
  forall g w,
    gen_state g = GenSuspended \/
    (gen_state g = GenCreated /\ first_call steps = Some GenNext) ->
    gen_state (snd (fst (relay steps g w))) = GenClosed ->
    exists evs,
      trace (snd (relay steps g w)) = trace w ++ evs /\
      List.filter is_cleanup_event evs
      = [EvTerminate; EvRelease (lock_key (gen_lock g))].
Proof.
  induction steps as [|[op|d] steps IH]; intros g w Hlive Hend.
  - cbn in Hend. destruct Hlive as [H|[H _]]; congruence.
  - cbn [relay] in *.
    assert (gen_state g = GenSuspended \/ (gen_state g = GenCreated /\ op = GenNext))
      as Hlive'.
    { destruct Hlive as [H|[H1 H2]]; [left; exact H|right].
      cbn in H2. split; congruence. }
    pose proof (gen_step_shape op g w Hlive') as Hshape.
    destruct (gen_step op g w) as [[r g1] w1].
    inversion Hshape as [chunk g1' Hs Hl Ht|r' w0 Hr Hw0]; subst.
    + specialize (IH g1 (emit EvRead w) (or_introl Hs)).
      destruct (relay steps g1 (emit EvRead w)) as [[rs g2] w2]. cbn in *.
      destruct (IH Hend) as (evs & Htr & Hf).
      exists (EvRead :: evs). rewrite Htr, <- app_assoc, <- Hl. auto.
    + destruct (relay_closed_trace steps (gen_closed g)
                  (snd (release (gen_lock g) (emit EvTerminate w0))) eq_refl)
        as [Htr _].
      destruct (relay steps (gen_closed g) _) as [[rs g2] w2].
      cbn [snd] in Htr |- *. rewrite Htr, gen_leave_trace.
      destruct Hw0 as [->| ->].
      * eexists; split; reflexivity.
      * cbn [emit trace]. rewrite <- app_assoc. eexists; split; reflexivity.
  - cbn [relay] in *. destruct (IH g (tick d w)) as (evs & Htr & Hf);
      [destruct Hlive as [H|[H1 H2]]; auto|assumption|].
    exists evs. auto.
Qed.

Lemma gen_step_quietly op g w :
  gen_step op (terminating_quietly g) w
  = (fst (fst (gen_step op g w)),
     terminating_quietly (snd (fst (gen_step op g w))),
     snd (gen_step op g w)).
Proof.
  unfold gen_step, gen_resume. cbn [terminating_quietly gen_state gen_proc stdout].
  destruct (gen_state g), op;
    try destruct (stdout (gen_proc g)) as [|[[|b chunk]|e] rest];
    rewrite ?gen_leave_spec; reflexivity.
Qed.

Lemma relay_quietly steps :
  forall g w,
    relay steps (terminating_quietly g) w
    = (fst (fst (relay steps g w)),
       terminating_quietly (snd (fst (relay steps g w))),
       snd (relay steps g w)).
Proof.
  induction steps as [|[op|d] steps IH]; intros g w; cbn [relay].
  - reflexivity.
  - rewrite gen_step_quietly. destruct (gen_step op g w) as [[r g1] w1].
    cbn [fst snd]. rewrite IH. destruct (relay steps g1 w1) as [[rs g2] w2].
    reflexivity.
  - apply IH.
Qed.

(** X16. Once the consumer has started the generator with [next], however
    the iteration ends (the read returns no bytes, the read raises, the
    consumer closes the generator or throws into it), the [finally] block
    has run: over the whole life of the relay [terminate] was called once
    and, after it, [release] once on the lock; and what the consumer sees
    is what it would see if [terminate] had not raised. *)
Theorem relay_cleanup steps g w rs g' w' :
  gen_state g = GenCreated ->
  first_call steps = Some GenNext ->
  relay steps g w = (rs, g', w') ->
  gen_state g' = GenClosed ->
  (exists evs,
      trace w' = trace w ++ evs /\
      List.filter is_cleanup_event evs
      = [EvTerminate; EvRelease (lock_key (gen_lock g))]) /\
  fst (fst (relay steps (terminating_quietly g) w)) = rs.
Proof.
  intros Hc Hfirst Hrun Hend. split.
  - pose proof (relay_cleanup_from steps g w (or_intror (conj Hc Hfirst))) as H.
    rewrite Hrun in H. apply H, Hend.
  - rewrite relay_quietly, Hrun. reflexivity.
Qed.

Lemma relay_cleanup_witness :
  let g := stream_generator Scenario.gone_process
             (Scenario.stream [Scenario.live_profile])
             (lock_for "lock:1:1" Scenario.world) in
  let w := granted "lock:1:1" Scenario.world in
  let run := relay Scenario.watching g w in
  (exists evs,
      trace (snd run) = trace w ++ evs /\
      List.filter is_cleanup_event evs
      = [EvTerminate; EvRelease (lock_key (gen_lock g))]) /\
  fst (fst (relay Scenario.watching (terminating_quietly g) w)) = fst (fst run).
Proof.
  intros g w run.
  apply (relay_cleanup Scenario.watching g w (fst (fst run)) (snd (fst run))
           (snd run)).
  - reflexivity.
  - reflexivity.
  - vm_compute; reflexivity.
  - vm_compute; reflexivity.
Defined.

(** ** A request that streams *)

Lemma allocate_returned env acct w r w0 :
  redis_up w = true ->
  allocate env acct w = (Returned r, w0) -> r = no_available_profiles.
Proof.
  intros Hup.
  destruct (List.find M3UAccountProfile.is_default (M3UAccount.profiles acct))
    as [d|] eqn:Hd.
  - rewrite (allocate_scan _ _ _ _ Hup Hd). unfold scan_result.
    destruct (first_free _ _) as [pre [c|]]; cbn [fst snd].
    + destruct (objects_get _ _ _); discriminate.
    + intros [= <- _]. reflexivity.
  - rewrite (allocate_no_default _ _ _ Hd). discriminate.
Qed.

Lemma prepare_outcome env channel p url w :
  match fst (prepare env channel p url w) with
  | Returned _ => False
  | _ => True
  end.
Proof.
  unfold prepare, bind, lift, ret, raise.
  destruct (url_rewrite _ _ _); [|exact I].
  destruct (resolve_stream_profile _ _); [|exact I].
  destruct (str_format _ _ _ _); exact I.
Qed.

Lemma stream_view_streams env stream_id w g ct w1 :
  redis_up w = true ->
  stream_view env stream_id w = (StreamingHttpResponse g ct, w1) ->
  exists stream p w0 cmd,
    allocate env (Stream.m3u_account stream) w = (Val (p, gen_lock g), w0) /\
    w1 = emit (EvPopen cmd) w0 /\
    gen_state g = GenCreated /\
    Popen env cmd = Ok (gen_proc g).
Proof.
  intros Hup. unfold stream_view, stream_view_try, bind.
  destruct (REDIS_HOST env); cbn [ret raise]; [|discriminate].
  rewrite lift_pure. destruct (objects_get _ _ _) as [ch|e]; [|discriminate].
  destruct (Channel.streams ch) as [|st rest]; [discriminate|].
  destruct (allocate env (Stream.m3u_account st) w) as [[[p l]|e|r] w0] eqn:Ha.
  - pose proof (prepare_pure env ch p
                  (str_or (Stream.custom_url st) (Stream.url st)) w0) as Hpure.
    pose proof (prepare_outcome env ch p
                  (str_or (Stream.custom_url st) (Stream.url st)) w0) as Hout.
    destruct (prepare _ _ _ _ _) as [[cmd|e|r] wp]; cbn in Hpure, Hout; subst;
      [|discriminate|contradiction].
    unfold launch, try_except, popen, bind.
    destruct (Popen env cmd) as [proc|e] eqn:Hrun; [|discriminate].
    intros [= <- <- <-]. exists st, p, w0, cmd. auto.
  - discriminate.
  - apply allocate_returned in Ha; [|assumption]. subst r. discriminate.
Qed.

Lemma relay_yields steps :
  forall g w,
    forallb is_yield (fst (fst (relay steps g w))) = true ->
    lock_store (snd (relay steps g w)) = lock_store w /\
    exists evs,
      trace (snd (relay steps g w)) = trace w ++ evs /\
      Forall (fun ev => ev = EvRead) evs.
Proof.
  induction steps as [|[op|d] steps IH]; intros g w Hy; cbn [relay] in *.
  - split; [reflexivity|]. exists []. rewrite app_nil_r. auto.
  - assert (gen_step op g w = (fst (fst (gen_step op g w)),
                               snd (fst (gen_step op g w)), emit EvRead w) \/
            is_yield (fst (fst (gen_step op g w))) = false) as Hstep.
    { unfold gen_step, gen_resume.
      destruct (gen_state g), op;
        try destruct (stdout (gen_proc g)) as [|[[|b chunk]|e] rest];
        rewrite ?gen_leave_spec; auto. }
    destruct (gen_step op g w) as [[r g1] w1]. cbn [fst snd] in Hstep.
    specialize (IH g1 w1).
    destruct (relay steps g1 w1) as [[rs g2] w2]. cbn [fst snd forallb] in *.
    apply andb_prop in Hy as [Hr Hrs].
    destruct Hstep as [[= ->]|Hn]; [|congruence].
    destruct (IH Hrs) as (Hst & evs & Htr & Hall).
    split; [exact Hst|]. exists (EvRead :: evs).
    rewrite Htr. cbn. rewrite <- app_assoc. auto.
  - destruct (IH g (tick d w) Hy) as (Hst & evs & Htr & Hall). eauto.
Qed.

(** C9. While a relay streams, whatever the number of chunks and however
    much time passes, the lock store is not written: the entry made at
    acquisition, with its expiry 120 units after the request, is the entry
    still there, and the only events are reads of the process output. *)
Theorem lock_never_renewed env stream_id w g ct w1 steps rs g' w' :
  redis_up w = true ->
  stream_view env stream_id w = (StreamingHttpResponse g ct, w1) ->
  relay steps g w1 = (rs, g', w') ->
  forallb is_yield rs = true ->
  lock_store w1 !! lock_key (gen_lock g)
  = Some {| holder := lock_token (gen_lock g);
            expires_at := (now w + 120)%nat |} /\
  lock_store w' = lock_store w1 /\
  exists evs,
    trace w' = trace w1 ++ evs /\ Forall (fun ev => ev = EvRead) evs.
Proof.
  intros Hup Hview Hrun Hy.
  destruct (stream_view_streams _ _ _ _ _ _ Hup Hview)
    as (st & p & w0 & cmd & Ha & -> & _ & _).
  destruct (allocate_holds _ _ _ _ _ _ Hup Ha) as (Hentry & _ & _).
  pose proof (relay_yields steps g (emit (EvPopen cmd) w0)) as H.
  rewrite Hrun in H. destruct (H Hy) as (Hst & Hev).
  split; [exact Hentry|]. split; assumption.
Qed.

Lemma lock_never_renewed_witness :
  let env := Scenario.env [Scenario.live_profile] Scenario.starts in
  let g := stream_generator Scenario.process
             (Scenario.stream [Scenario.live_profile])
             (lock_for "lock:1:1" Scenario.world) in
  let w1 := snd (stream_view env 101 Scenario.world) in
  let run := relay [Call GenNext; Wait 200; Call GenNext] g w1 in
  lock_store w1 !! lock_key (gen_lock g)
  = Some {| holder := lock_token (gen_lock g);
            expires_at := (now Scenario.world + 120)%nat |} /\
  lock_store (snd run) = lock_store w1 /\
  exists evs,
    trace (snd run) = trace w1 ++ evs /\ Forall (fun ev => ev = EvRead) evs.
Proof.
  intros env g w1 run.
  apply (lock_never_renewed env 101 Scenario.world g "video/MP2T" w1
           [Call GenNext; Wait 200; Call GenNext]
           (fst (fst run)) (snd (fst run)) (snd run)).
  - reflexivity.
  - vm_compute; reflexivity.
  - vm_compute; reflexivity.
  - vm_compute; reflexivity.
Defined.

(** ** The lock among concurrent clients *)

Lemma wins_snoc key evs ev :
  wins key (evs ++ [ev])
  = (wins key evs
     + match ev with
       | EvAcquire k true => if String.eqb k key then 1 else 0
       | _ => 0
       end)%nat.
Proof.
  unfold wins. rewrite List.filter_app, List.length_app. f_equal.
  destruct ev as [k [|]| | | |]; cbn; try reflexivity.
  destruct (String.eqb k key); reflexivity.
Qed.

Lemma acquire_step l w :
  redis_up w = true ->
  acquire l w
  = if held (lock_store w) (now w) (lock_key l)
    then (Val false, emit (EvAcquire (lock_key l) false) w)
    else (Val true,
          emit (EvAcquire (lock_key l) true)
            (set_store
               (<[lock_key l := {| holder := lock_token l;
                                   expires_at := (now w + lock_timeout l)%nat |}]>
                  (lock_store w)) w)).
Proof.
  intros Hup. unfold acquire, set_if_absent. rewrite Hup.
  destruct (held _ _ _); [rewrite set_store_same|]; reflexivity.
Qed.

(** While the schedule stays before time [B], a lease on [key] that lasts
    to [B] keeps every attempt out, and without such a lease at most one
    attempt gets in, taking a lease that lasts to [B]. *)
Lemma schedule_wins key ttl B :
  forall steps w,
    redis_up w = true ->
    Forall (fun s => is_release_of key s = false) steps ->
    Forall (fun s => forall l, s = Acquire l -> lock_key l = key ->
                               (ttl <= lock_timeout l)%nat) steps ->
    (now w + elapsed steps < B)%nat ->
    (B <= now w + ttl)%nat ->
    (wins key (trace (schedule steps w)) <= wins key (trace w) + 1)%nat /\
    ((exists e, lock_store w !! key = Some e /\ (B <= expires_at e)%nat) ->
     wins key (trace (schedule steps w)) = wins key (trace w)).
Proof.
  induction steps as [|s steps IH]; intros w Hup Hrel Httl Hnow HB.
  - cbn. split; [lia|reflexivity].
  - inversion Hrel as [|? ? Hr Hrel']; subst.
    inversion Httl as [|? ? Ht Httl']; subst.
    cbn [schedule fold_left]. fold (schedule steps (store_step s w)).
    destruct s as [l|l|d]; cbn [store_step elapsed fold_right] in *;
      fold (elapsed steps) in *.
    + rewrite (acquire_step l w Hup).
      destruct (String.eqb_spec (lock_key l) key) as [Hk|Hk].
      * specialize (Ht l eq_refl Hk). subst key.
        destruct (held (lock_store w) (now w) (lock_key l)) eqn:Hheld; cbn [snd].
        -- destruct (IH (emit (EvAcquire (lock_key l) false) w) Hup Hrel' Httl'
                       Hnow HB) as [IH1 IH2].
           cbn [emit trace lock_store] in IH1, IH2.
           rewrite wins_snoc, Nat.add_0_r in IH1, IH2. auto.
        -- destruct (IH (emit (EvAcquire (lock_key l) true)
                           (set_store
                              (<[lock_key l := {| holder := lock_token l;
                                   expires_at := (now w + lock_timeout l)%nat |}]>
                                 (lock_store w)) w))
                       Hup Hrel' Httl' Hnow HB) as [_ IH2].
           cbn [emit set_store trace lock_store] in IH2.
           rewrite wins_snoc, String.eqb_refl in IH2.
           rewrite IH2.
           ++ split; [lia|]. intros (e & He & HBe).
              unfold held in Hheld. rewrite He in Hheld.
              apply Nat.ltb_ge in Hheld. lia.
           ++ eexists. rewrite lookup_insert_eq. split; [reflexivity|cbn; lia].
      * apply String.eqb_neq in Hk as Hkb.
        destruct (held (lock_store w) (now w) (lock_key l)); cbn [snd].
        -- destruct (IH (emit (EvAcquire (lock_key l) false) w) Hup Hrel' Httl'
                       Hnow HB) as [IH1 IH2].
           cbn [emit trace lock_store] in IH1, IH2.
           rewrite wins_snoc, Nat.add_0_r in IH1, IH2. auto.
        -- destruct (IH (emit (EvAcquire (lock_key l) true)
                           (set_store
                              (<[lock_key l := {| holder := lock_token l;
                                   expires_at := (now w + lock_timeout l)%nat |}]>
                                 (lock_store w)) w))
                       Hup Hrel' Httl' Hnow HB) as [IH1 IH2].
           cbn [emit set_store trace lock_store] in IH1, IH2.
           rewrite wins_snoc, Hkb, Nat.add_0_r in IH1, IH2.
           rewrite lookup_insert_ne in IH2 by assumption. auto.
    + cbn [is_release_of] in Hr. apply String.eqb_neq in Hr.
      cbn [release snd]. rewrite Hup.
      destruct (IH (emit (EvRelease (lock_key l))
                      (set_store (delete_if_owned (lock_store w) (lock_key l)
                                    (lock_token l)) w))
                  Hup Hrel' Httl' Hnow HB) as [IH1 IH2].
      cbn [emit set_store trace lock_store] in IH1, IH2.
      rewrite wins_snoc, Nat.add_0_r in IH1, IH2.
      assert (delete_if_owned (lock_store w) (lock_key l) (lock_token l) !! key
              = lock_store w !! key) as Hsame.
      { unfold delete_if_owned. destruct (lock_store w !! lock_key l) as [e|];
          [|reflexivity].
        destruct (holder e =? lock_token l)%nat; [|reflexivity].
        apply lookup_delete_ne. assumption. }
      rewrite Hsame in IH2. auto.
    + destruct (IH (tick d w) Hup Hrel' Httl') as [IH1 IH2]; cbn [tick now]; try lia.
      cbn [tick trace lock_store] in IH1, IH2. auto.
Qed.

Lemma release_frees l l' w :
  redis_up w = true ->
  lock_key l' = lock_key l ->
  fst (acquire l w) = Val true ->
  fst (acquire l' (snd (release l (snd (acquire l w))))) = Val true.
Proof.
  intros Hup Hk. rewrite (acquire_step l w Hup).
  destruct (held (lock_store w) (now w) (lock_key l)); [discriminate|].
  intros _. cbn [snd]. rewrite acquire_step by (cbn; exact Hup).
  cbn [release snd emit set_store lock_store now redis_up]. rewrite Hup, Hk.
  unfold delete_if_owned. rewrite lookup_insert_eq. cbn [holder].
  rewrite Nat.eqb_refl. unfold held. rewrite lookup_delete_eq. reflexivity.
Qed.

(** C4. Over any interleaving of steps that clients take on the shared
    store (attempts on any keys by any handles, releases of other keys, the
    passing of less time than the leases last), at most one attempt on a
    given key succeeds; and once the holder has released the key, the next
    attempt on it succeeds.  The clients share nothing but the store. *)
Theorem mutual_exclusion key ttl steps w l l' :
  redis_up w = true ->
  Forall (fun s => is_release_of key s = false) steps ->
  Forall (fun s => forall h, s = Acquire h -> lock_key h = key ->
                             (ttl <= lock_timeout h)%nat) steps ->
  (elapsed steps < ttl)%nat ->
  lock_key l = key -> lock_key l' = key ->
  (wins key (trace (schedule steps w)) <= wins key (trace w) + 1)%nat /\
  (fst (acquire l w) = Val true ->
   fst (acquire l' (snd (release l (snd (acquire l w))))) = Val true).
Proof.
  intros Hup Hrel Httl Hel Hl Hl'. split.
  - apply (schedule_wins key ttl (now w + ttl)%nat steps w); auto; lia.
  - apply release_frees; congruence.
Qed.

Lemma mutual_exclusion_witness :
  (wins "lock:1:1" (trace (schedule Scenario.race Scenario.world))
   <= wins "lock:1:1" (trace Scenario.world) + 1)%nat /\
  (fst (acquire Scenario.first_client Scenario.world) = Val true ->
   fst (acquire Scenario.second_client
          (snd (release Scenario.first_client
                  (snd (acquire Scenario.first_client Scenario.world)))))
   = Val true).
Proof.
  apply (mutual_exclusion "lock:1:1" 120 Scenario.race Scenario.world
           Scenario.first_client Scenario.second_client).
  - reflexivity.
  - repeat constructor.
  - repeat (constructor;
            [intros h Hh _; try discriminate Hh; injection Hh as <-; cbn; lia|]).
    constructor.
  - cbn; lia.
  - reflexivity.
  - reflexivity.
Defined.

(** ** Strings *)

Lemma append_cons x (a b : string) : String x a +:+ b = String x (a +:+ b).
Proof. reflexivity. Qed.

Lemma append_empty_r (s : string) : s +:+ EmptyString = s.
Proof.
  induction s as [|c s IH]; [reflexivity|]. rewrite append_cons, IH. reflexivity.
Qed.

Lemma digit_is_not_dollar d : is_digit d = true -> (d =? "$")%char = false.
Proof.
  intros Hd. destruct (Ascii.eqb_spec d "$") as [->|]; [discriminate Hd|reflexivity].
Qed.

(** ** The matcher *)

(** The matcher hands to its continuation only what is left of the text,
    at the offset where that starts. *)
Lemma star_iter_ext {R} (body : nat -> string -> caps -> kont R -> option R) :
  (forall pos s c k k',
      agree_after s pos k k' -> body pos s c k = body pos s c k') ->
  forall n pos s c k k',
    agree_after s pos k k' ->
    star_iter body k n pos s c = star_iter body k' n pos s c.
Proof.
  intros Hbody. induction n as [|n IH]; intros pos s c k k' Hk; cbn [star_iter].
  - apply Hk; lia.
  - rewrite (Hk pos s c) by lia.
    erewrite Hbody; [reflexivity|].
    intros p' s' c' Hlen Hpos. destruct (p' =? pos)%nat; [apply Hk; lia|].
    apply IH. intros p2 s2 c2 Hlen2 Hpos2. apply Hk; lia.
Qed.

Lemma matches_ext {R} (r : regex) :
  forall pos s c (k k' : kont R),
    agree_after s pos k k' -> matches r pos s c k = matches r pos s c k'.
Proof.
  induction r as [|a|f|r1 IH1 r2 IH2|r1 IH1 r2 IH2|r1 IH1|n r1 IH1| |];
    intros pos s c k k' Hk; cbn [matches].
  - apply Hk; lia.
  - destruct s as [|x s']; [reflexivity|]. destruct (x =? a)%char; [|reflexivity].
    apply Hk; cbn; lia.
  - destruct s as [|x s']; [reflexivity|]. destruct (f x); [|reflexivity].
    apply Hk; cbn; lia.
  - apply IH1. intros p' s' c' Hlen Hpos. apply IH2.
    intros p2 s2 c2 Hlen2 Hpos2. apply Hk; lia.
  - rewrite (IH1 pos s c k k' Hk), (IH2 pos s c k k' Hk). reflexivity.
  - apply star_iter_ext; assumption.
  - apply IH1. intros p' s' c' Hlen Hpos. apply Hk; assumption.
  - destruct (pos =? 0)%nat; [|reflexivity]. apply Hk; lia.
  - destruct s as [|x [|y s']]; try reflexivity.
    + apply Hk; lia.
    + destruct (x =? "010")%char; [|reflexivity]. apply Hk; lia.
Qed.

Lemma star_iter_none {R} (body : nat -> string -> caps -> kont R -> option R) :
  (forall pos s c, body pos s c (fun _ _ _ => None) = None) ->
  (forall pos s c k k',
      agree_after s pos k k' -> body pos s c k = body pos s c k') ->
  forall n pos s c, star_iter body (fun _ _ _ => None) n pos s c = None.
Proof.
  intros Hnone Hext. induction n as [|n IH]; intros pos s c; cbn [star_iter];
    [reflexivity|].
  rewrite (Hext pos s c _ (fun _ _ _ => None)); [rewrite Hnone; reflexivity|].
  intros p' s' c' _ _. destruct (p' =? pos)%nat; [reflexivity|apply IH].
Qed.

(** Nothing matches when nothing may follow. *)
Lemma matches_none {R} (r : regex) :
  forall pos s c, matches r pos s c (fun _ _ _ => @None R) = None.
Proof.
  induction r as [|a|f|r1 IH1 r2 IH2|r1 IH1 r2 IH2|r1 IH1|n r1 IH1| |];
    intros pos s c; cbn [matches].
  - reflexivity.
  - destruct s as [|x s']; [|destruct (x =? a)%char]; reflexivity.
  - destruct s as [|x s']; [|destruct (f x)]; reflexivity.
  - rewrite (matches_ext r1 pos s c _ (fun _ _ _ => None)); [apply IH1|].
    intros p' s' c' _ _. apply IH2.
  - rewrite IH1. apply IH2.
  - apply star_iter_none; [exact IH1|apply matches_ext].
  - apply IH1.
  - destruct (pos =? 0)%nat; reflexivity.
  - destruct s as [|x [|y s']]; try reflexivity.
    destruct (x =? "010")%char; reflexivity.
Qed.

(** More rounds than the text is long, and one, change nothing: every
    round of a star but the last consumes a character. *)
Lemma star_iter_fuel {R} (r : regex) (k : kont R) :
  forall n pos s c,
    (String.length s < n)%nat ->
    star_iter (matches r) k (S n) pos s c = star_iter (matches r) k n pos s c.
Proof.
  induction n as [|n IH]; intros pos s c Hlen; [lia|].
  cbn [star_iter].
  rewrite (matches_ext r pos s c _
             (fun p' s' c' =>
                if (p' =? pos)%nat then k p' s' c'
                else star_iter (matches r) k n p' s' c')); [reflexivity|].
  intros p' s' c' Hl Hp. destruct (Nat.eqb_spec p' pos); [reflexivity|].
  apply (IH p' s' c'). lia.
Qed.

Lemma star_iter_class_step {R} (f : ascii -> bool) (k : kont R) n p x s c :
  star_iter (matches (Cls f)) k (S n) p (String x s) c
  = if f x then
      match star_iter (matches (Cls f)) k n (S p) s c with
      | Some v => Some v
      | None => k p (String x s) c
      end
    else k p (String x s) c.
Proof.
  change (star_iter (matches (Cls f)) k (S n) p (String x s) c)
    with (match (if f x
                 then if (S p =? p)%nat then k (S p) s c
                      else star_iter (matches (Cls f)) k n (S p) s c
                 else None) with
          | Some v => Some v
          | None => k p (String x s) c
          end).
  destruct (f x); [|reflexivity].
  assert ((S p =? p)%nat = false) as -> by (apply Nat.eqb_neq; lia).
  reflexivity.
Qed.

Lemma star_iter_class_empty {R} (f : ascii -> bool) (k : kont R) n p c :
  star_iter (matches (Cls f)) k n p EmptyString c = k p EmptyString c.
Proof. destruct n; [reflexivity|]. simpl. reflexivity. Qed.

(** A run of characters of a class under a star is taken whole when what
    follows the star accepts. *)
Lemma star_class_run {R} (f : ascii -> bool) (k : kont R) :
  (forall p s c, k p s c <> None) ->
  forall n s p c,
    (String.length s <= n)%nat ->
    exists m,
      star_iter (matches (Cls f)) k n p s c = k (p + m)%nat (skip_chars m s) c /\
      (m <= String.length s)%nat /\
      (forall x t, skip_chars m s = String x t -> f x = false) /\
      substring 0 m s +:+ skip_chars m s = s /\
      forallb f (list_ascii_of_string (substring 0 m s)) = true.
Proof.
  intros Hk.
  assert (forall s p c,
             (forall x t, s = String x t -> f x = false) ->
             k p s c = k (p + 0)%nat (skip_chars 0 s) c /\
             (0 <= String.length s)%nat /\
             (forall x t, skip_chars 0 s = String x t -> f x = false) /\
             substring 0 0 s +:+ skip_chars 0 s = s /\
             forallb f (list_ascii_of_string (substring 0 0 s)) = true) as Hstop0.
  { intros s p c Hs. rewrite Nat.add_0_r.
    assert (skip_chars 0 s = s) as -> by (destruct s; reflexivity).
    assert (substring 0 0 s = EmptyString) as -> by (destruct s; reflexivity).
    split; [reflexivity|]. split; [lia|]. split; [exact Hs|].
    split; reflexivity. }
  induction n as [|n IH]; intros s p c Hlen.
  - exists O. cbn [star_iter]. apply Hstop0.
    intros x t ->. cbn in Hlen. lia.
  - destruct s as [|x s].
    + exists O. rewrite star_iter_class_empty. apply Hstop0.
      intros y t H. discriminate H.
    + rewrite star_iter_class_step. destruct (f x) eqn:Hx.
      * destruct (IH s (S p) c) as (m & Hm & Hle & Hstop & Hsplit & Hall);
          [cbn in Hlen; lia|].
        exists (S m). rewrite Hm.
        destruct (k (S p + m)%nat (skip_chars m s) c) eqn:Hres;
          [|exfalso; eapply Hk; eassumption].
        replace (p + S m)%nat with (S p + m)%nat by lia.
        cbn [skip_chars]. rewrite Hres.
        split; [reflexivity|]. split; [cbn; lia|]. split; [exact Hstop|].
        split.
        -- cbn [substring]. rewrite append_cons, Hsplit. reflexivity.
        -- cbn. rewrite Hx. exact Hall.
      * exists O. apply Hstop0. intros y t [= <- <-]. exact Hx.
Qed.

Lemma digit_run_spec s :
  forall m,
    forallb is_digit (list_ascii_of_string (substring 0 m s)) = true ->
    (m <= String.length s)%nat ->
    (forall x t, skip_chars m s = String x t -> is_digit x = false) ->
    m = digit_run s.
Proof.
  induction s as [|x s IH]; intros m Hall Hle Hstop.
  - cbn in Hle. cbn. lia.
  - destruct m as [|m]; cbn in *.
    + specialize (Hstop x s eq_refl). rewrite Hstop. reflexivity.
    + apply andb_prop in Hall as [Hx Hall]. rewrite Hx. f_equal.
      apply IH; [assumption|lia|assumption].
Qed.

(** What [\$(\d+)] finds at the head of a text. *)
Lemma match_at_dollar_digits pos s :
  match_at dollar_digits pos s false
  = match s with
    | String c s' =>
        if (c =? "$")%char && starts_with_digit s' then
          Some {| m_start := pos; m_end := (S pos + digit_run s')%nat;
                  m_text := substring 0 (S (digit_run s')) s;
                  m_groups := [(1%nat, substring 0 (digit_run s') s')] |}
        else None
    | EmptyString => None
    end.
Proof.
  unfold match_at, dollar_digits, Plus. cbn [matches].
  destruct s as [|c s']; [reflexivity|].
  destruct (c =? "$")%char; [|reflexivity]. cbn [andb].
  destruct s' as [|d s'']; [reflexivity|]. cbn [starts_with_digit digit_run].
  destruct (is_digit d) eqn:Hd; [|reflexivity].
  destruct (star_class_run is_digit
              (fun (p' : nat) (_ : string) (c' : caps) =>
                 Some {| m_start := pos; m_end := p';
                         m_text := substring 0 (p' - pos) (String c (String d s''));
                         m_groups :=
                           (1%nat, substring 0 (p' - S pos) (String d s'')) :: c' |})
              ltac:(discriminate)
              (S (String.length s'')) s'' (S (S pos)) [] (Nat.le_succ_diag_r _))
    as (m & Hm & Hle & Hstop & _ & Hall).
  etransitivity; [exact Hm|].
  rewrite (digit_run_spec s'' m Hall Hle Hstop).
  replace (S (S pos) + digit_run s'' - pos)%nat with (S (S (digit_run s''))) by lia.
  replace (S (S pos) + digit_run s'' - S pos)%nat with (S (digit_run s'')) by lia.
  do 2 f_equal. lia.
Qed.

(** ** The escaping step, line 107 *)

Lemma skip_chars_empty k : skip_chars k EmptyString = EmptyString.
Proof. destruct k; reflexivity. Qed.

Lemma skip_chars_0 s : skip_chars 0 s = s.
Proof. destruct s; reflexivity. Qed.

Lemma dollar_to_backslash_cons c s :
  dollar_to_backslash (String c s)
  = String (if (c =? "$")%char && starts_with_digit s then "\"%char else c)
      (dollar_to_backslash s).
Proof.
  destruct s; cbn [dollar_to_backslash starts_with_digit];
    [rewrite andb_false_r|]; reflexivity.
Qed.

Lemma dollar_to_backslash_digits s :
  dollar_to_backslash s
  = substring 0 (digit_run s) s +:+ dollar_to_backslash (skip_chars (digit_run s) s).
Proof.
  induction s as [|x s IH].
  - reflexivity.
  - cbn [digit_run]. destruct (is_digit x) eqn:Hx.
    + cbn [substring skip_chars]. rewrite append_cons, <- IH.
      cbn [dollar_to_backslash]. rewrite (digit_is_not_dollar x Hx).
      destruct s; reflexivity.
    + reflexivity.
Qed.

Lemma sub_dollar_digits s :
  forall pos k,
    sub_from dollar_digits (expand_template backslash_then_group1) pos s k
    = dollar_to_backslash (skip_chars k s).
Proof.
  induction s as [|c s IH]; intros pos k.
  - rewrite skip_chars_empty. destruct k; reflexivity.
  - destruct k as [|k]; cbn [sub_from skip_chars]; [|apply IH].
    rewrite match_at_dollar_digits.
    destruct ((c =? "$")%char && starts_with_digit s) eqn:Hc.
    + cbn [m_end].
      assert ((S pos + digit_run s =? pos)%nat = false) as ->
        by (apply Nat.eqb_neq; lia).
      replace (S pos + digit_run s - pos - 1)%nat with (digit_run s) by lia.
      rewrite IH.
      rewrite dollar_to_backslash_cons, Hc.
      rewrite (dollar_to_backslash_digits s).
      cbn [expand_template backslash_then_group1 group cap_text m_groups Nat.eqb].
      rewrite append_cons, append_empty_r. reflexivity.
    + rewrite IH, skip_chars_0, dollar_to_backslash_cons, Hc. reflexivity.
Qed.

(** Line 107 never raises, and it turns every [$] that a digit follows into
    a backslash: [$N] becomes the group reference [\N] of [re]. *)
Lemma safe_replace_pattern_spec replace_pattern :
  safe_replace_pattern replace_pattern = Ok (dollar_to_backslash replace_pattern).
Proof.
  unfold safe_replace_pattern, re_sub.
  change (has_backslash backslash_group1) with true.
  change (parse_template (groups dollar_digits) 0 backslash_group1)
    with (Ok backslash_then_group1).
  cbv iota. rewrite sub_dollar_digits, skip_chars_0. reflexivity.
Qed.

(** ** The substitution, line 110 *)

Lemma sub_from_no_match r expand :
  forall s pos, search r pos s = None -> sub_from r expand pos s 0 = s.
Proof.
  induction s as [|c s IH]; intros pos H; cbn [search sub_from] in *;
    destruct (match_at r pos _ false); try discriminate H.
  - reflexivity.
  - rewrite (IH _ H). reflexivity.
Qed.


(** C8 as amended. When the search pattern matches nowhere in the URL and
    the escaped replace pattern is a replacement that [re.sub] accepts for
    the pattern, the rewriting step returns the URL unchanged. *)
Theorem no_match_passthrough r replace_pattern input_url :
  valid_template r (dollar_to_backslash replace_pattern) = true ->
  search r 0 input_url = None ->
  url_rewrite (Compiles r) replace_pattern input_url = Ok input_url.
Proof.
  intros Hvalid Hnone. unfold url_rewrite.
  rewrite safe_replace_pattern_spec. unfold re_sub, valid_template in *.
  destruct (has_backslash (dollar_to_backslash replace_pattern)); cbn [negb orb] in *.
  - destruct (parse_template _ _ _); [|discriminate Hvalid].
    rewrite sub_from_no_match by assumption. reflexivity.
  - rewrite sub_from_no_match by assumption. reflexivity.
Qed.

Lemma no_match_passthrough_witness :
  url_rewrite (Compiles Scenario.live_group) "$1proxy" Scenario.vod_url
  = Ok Scenario.vod_url.
Proof.
  apply (no_match_passthrough Scenario.live_group "$1proxy" Scenario.vod_url).
  - vm_compute; reflexivity.
  - vm_compute; reflexivity.
Defined.

(** C8 as stated fails: [x] matches nowhere in [abc], yet with the replace
    pattern [$1] the step raises, since [x] has no group 1 for the escaped
    replacement [\1] to refer to and [re.sub] reads the replacement before
    it searches. *)
Lemma passthrough_needs_a_valid_replacement : ~ passthrough_for_any_replace.
Proof.
  intros H. specialize (H Scenario.letter_x "$1" "abc" eq_refl).
  vm_compute in H. discriminate H.
Qed.

(** ** A [$N] token in the replace pattern *)

Lemma dollar_to_backslash_plain s :
  no_char "$" s = true -> dollar_to_backslash s = s.
Proof.
  induction s as [|x s IH]; [reflexivity|]. cbn [no_char].
  intros [Hx Hs]%andb_prop. apply negb_true_iff in Hx.
  rewrite dollar_to_backslash_cons, Hx, (IH Hs). reflexivity.
Qed.








(** *** Where a match can end *)







(** *** Every match is replaced *)








(** The relation has one output for a text. *)
Lemma every_match_replaced_unique r repl pos must_advance s out :
  every_match_replaced r repl pos must_advance s out ->
  forall out',
    every_match_replaced r repl pos must_advance s out' -> out = out'.
Proof.
  induction 1 as [pos a s Hn|pos a s m out Hn Hrest IH]; intros out' H';
    inversion H' as [p b t Hn'|p b t m' o' Hn' Hrest']; subst.
  - reflexivity.
  - rewrite Hn in Hn'. discriminate Hn'.
  - rewrite Hn in Hn'. discriminate Hn'.
  - rewrite Hn in Hn'. injection Hn' as <-.
    rewrite (IH _ Hrest'). reflexivity.
Qed.






(** ** The model of [re.sub] on fixed inputs

    Each pair below was obtained from CPython's [re.sub] on the same
    arguments. *)

Example escape_token : safe_replace_pattern "$1proxy" = Ok (String "\" "1proxy").
Proof. vm_compute; reflexivity. Qed.

Example escape_mixed :
  safe_replace_pattern "cost $5 and $x, a$$12"
  = Ok ("cost " +:+ String "\" "5 and $x, a$" +:+ String "\" "12").
Proof. vm_compute; reflexivity. Qed.

Example rewrite_with_group :
  url_rewrite (Compiles Scenario.live_group) "$1proxy" "http://src/live/1"
  = Ok "http://src/liveproxy/1".
Proof. vm_compute; reflexivity. Qed.

Example rewrite_without_group :
  url_rewrite (Compiles Scenario.any_text) "$1proxy" "http://src/live/1"
  = Err (ReError "invalid group reference 1 at position 1").
Proof. vm_compute; reflexivity. Qed.

Example sub_any_text_twice :
  re_sub (Compiles Scenario.any_text) "X" "abc" = Ok "XX".
Proof. vm_compute; reflexivity. Qed.

Example sub_empty_matches :
  re_sub (Compiles (Star Scenario.letter_x)) "-" "abxd" = Ok "-a-b--d-".
Proof. vm_compute; reflexivity. Qed.

Example sub_star_of_star :
  re_sub (Compiles (Star (Group 1 (Star (Chr "a"))))) "[\1]" "aab"
  = Ok "[][]b[]".
Proof. vm_compute; reflexivity. Qed.

Example sub_empty_alternative :
  re_sub (Compiles (Star (Alt Eps (Chr "a")))) "X" "aa" = Ok "XXXXX".
Proof. vm_compute; reflexivity. Qed.

Example sub_unset_group :
  re_sub (Compiles (Alt (Group 1 (Chr "a")) (Chr "b")))
    ("[" +:+ String "\" "1]") "ab"
  = Ok "[a][]".
Proof. vm_compute; reflexivity. Qed.

Example sub_bad_escape :
  re_sub (Compiles (Chr "a")) (String "\" "q") "b"
  = Err (ReError ("bad escape " +:+ String "\" "q at position 0")).
Proof. vm_compute; reflexivity. Qed.

Example sub_octal_escape :
  re_sub (Compiles (Group 1 (Chr "a"))) (String "\" "123") "a" = Ok "S".
Proof. vm_compute; reflexivity. Qed.

(** ** Where the iteration never starts

    Python runs nothing of a generator's frame when [close] is the first
    call on it: the [try] block was not entered, so its [finally] block is
    not run either.  The process that line 135 started and the lock that
    line 87 acquired are then left as they are. *)
Lemma close_before_next_runs_nothing g w :
  gen_state g = GenCreated ->
  gen_step GenClose g w = (CloseReturned, gen_closed g, w).
Proof. intros H. unfold gen_step. rewrite H. reflexivity. Qed.

(** C1 fails where the consumer closes the generator before its first
    [next].  The request of the scenario has started the process and holds
    the slot; the response is closed before a chunk was asked for, and a
    later [next] only stops the iteration.  Neither [terminate] nor
    [release] was ever called: the process is left running, the key is
    still held a minute later, and the next request for the channel finds
    no slot. *)
Theorem never_started_relay_leaks :
  let env := Scenario.env [Scenario.live_profile] Scenario.starts in
  let answer := stream_view env 101 Scenario.world in
  exists g,
    fst answer = StreamingHttpResponse g "video/MP2T" /\
    let run := relay [Call GenClose; Wait 60; Call GenNext] g (snd answer) in
    fst (fst run) = [CloseReturned; StopIteration] /\
    gen_state (snd (fst run)) = GenClosed /\
    trace (snd run) = [EvAcquire "lock:1:1" true; EvPopen Scenario.ffmpeg_cmd] /\
    held (lock_store (snd run)) (now (snd run)) "lock:1:1" = true /\
    fst (stream_view env 101 (snd run))
    = HttpResponseServerError "No available profiles for the stream".
Proof.
  eexists. split; [vm_compute; reflexivity|]. vm_compute. auto.
Qed.

(** * Further facts about the request handler *)

(** ** Requests that end before allocation, lines 39-49 *)

Lemma filter_none {A} (p : A -> bool) (l : list A) :
  Forall (fun x => p x = false) l -> List.filter p l = [].
Proof.
  induction 1 as [|x l Hx _ IH]; [reflexivity|]. cbn. rewrite Hx. exact IH.
Qed.

(** X1. A request for a channel number that no channel has is answered with
    "Error preparing stream: Channel matching query does not exist."; the
    lock store is not touched and nothing is started. *)
Theorem unknown_channel_fails env stream_id w :
  is_Some (REDIS_HOST env) ->
  Forall (fun c => (Channel.channel_number c =? stream_id) = false)
    (Channel_objects env) ->
  stream_view env stream_id w
  = (HttpResponseServerError
       "Error preparing stream: Channel matching query does not exist.", w).
Proof.
  intros [host Hhost] Hnone. unfold stream_view, stream_view_try.
  rewrite Hhost. rewrite (bind_val _ _ w host w) by reflexivity.
  rewrite (bind_raised _ _ w (DoesNotExist "Channel") w); [reflexivity|].
  rewrite lift_pure. unfold objects_get. rewrite (filter_none _ _ Hnone).
  reflexivity.
Qed.

Lemma unknown_channel_fails_witness :
  stream_view (Scenario.env [Scenario.live_profile] Scenario.starts) 102
    Scenario.world
  = (HttpResponseServerError
       "Error preparing stream: Channel matching query does not exist.",
     Scenario.world).
Proof.
  apply (unknown_channel_fails
           (Scenario.env [Scenario.live_profile] Scenario.starts) 102
           Scenario.world).
  - eexists; reflexivity.
  - repeat constructor.
Defined.

(** X2. A request for a channel that has no stream is answered with "No
    stream found for this channel."; the lock store is not touched and
    nothing is started. *)
Theorem channel_without_streams env stream_id channel w :
  is_Some (REDIS_HOST env) ->
  objects_get "Channel" (fun c => Channel.channel_number c =? stream_id)
    (Channel_objects env) = Ok channel ->
  Channel.streams channel = [] ->
  stream_view env stream_id w
  = (HttpResponseServerError "No stream found for this channel.", w).
Proof.
  intros [host Hhost] Hch Hnone. unfold stream_view, stream_view_try.
  rewrite Hhost. rewrite (bind_val _ _ w host w) by reflexivity.
  rewrite (bind_val _ _ w channel w) by (rewrite lift_pure, Hch; reflexivity).
  rewrite Hnone. reflexivity.
Qed.

(** X3. Line 39 reads REDIS_HOST with the default "localhost", but line 40
    reads the setting itself: when the settings do not define REDIS_HOST
    every request, whatever the channel, is answered with "Error preparing
    stream" for the missing attribute, and nothing else happens. *)
Theorem redis_host_setting_is_required env stream_id w :
  REDIS_HOST env = None ->
  stream_view env stream_id w
  = (HttpResponseServerError
       "Error preparing stream: 'Settings' object has no attribute 'REDIS_HOST'",
     w).
Proof.
  intros Hhost. unfold stream_view, stream_view_try. rewrite Hhost. reflexivity.
Qed.

Lemma channel_without_streams_witness :
  stream_view (Scenario.env_with [Scenario.empty_channel] (Some "localhost")) 103
    Scenario.world
  = (HttpResponseServerError "No stream found for this channel.", Scenario.world).
Proof.
  apply (channel_without_streams
           (Scenario.env_with [Scenario.empty_channel] (Some "localhost")) 103
           Scenario.empty_channel Scenario.world).
  - eexists; reflexivity.
  - reflexivity.
  - reflexivity.
Defined.

Lemma redis_host_setting_is_required_witness :
  stream_view (Scenario.env_with [Scenario.empty_channel] None) 103 Scenario.world
  = (HttpResponseServerError
       "Error preparing stream: 'Settings' object has no attribute 'REDIS_HOST'",
     Scenario.world).
Proof.
  apply (redis_host_setting_is_required
           (Scenario.env_with [Scenario.empty_channel] None) 103 Scenario.world).
  reflexivity.
Defined.

(** ** The request that streams, lines 133-135 and 161-164 *)

(** X4. When a slot was acquired, the command was built and the process
    started, the answer is a streaming response of content type video/MP2T
    over a generator that has not run yet; the request has recorded the
    start of that one process, has not released the lock, and the slot is
    held for 120 time units from the request. *)
Theorem started_process_is_streamed env stream_id channel stream w p l w1 cmd proc :
  resolves env stream_id channel stream ->
  redis_up w = true ->
  allocate env (Stream.m3u_account stream) w = (Val (p, l), w1) ->
  fst (prepare env channel p (input_url_of stream) w1) = Val cmd ->
  Popen env cmd = Ok proc ->
  stream_view env stream_id w
  = (StreamingHttpResponse (stream_generator proc stream l) "video/MP2T",
     emit (EvPopen cmd) w1) /\
  gen_state (stream_generator proc stream l) = GenCreated /\
  lock_store (emit (EvPopen cmd) w1) !! lock_key l
  = Some {| holder := lock_token l; expires_at := (now w + 120)%nat |}.
Proof.
  intros Hres Hup Ha Hp Hrun.
  destruct (allocate_holds _ _ _ _ _ _ Hup Ha) as (Hentry & _ & _).
  assert (prepare env channel p (input_url_of stream) w1 = (Val cmd, w1)) as Hp'.
  { pose proof (prepare_pure env channel p (input_url_of stream) w1) as Hw.
    destruct (prepare _ _ _ _ _); cbn in *; congruence. }
  split; [|split; [reflexivity|exact Hentry]].
  unfold stream_view. rewrite (stream_view_try_resolved _ _ _ _ _ Hres).
  rewrite (bind_val _ _ _ _ _ Ha). rewrite (bind_val _ _ _ _ _ Hp').
  unfold bind, launch, try_except, popen. rewrite Hrun. reflexivity.
Qed.

Lemma started_process_is_streamed_witness :
  stream_view (Scenario.env [Scenario.live_profile] Scenario.starts) 101
    Scenario.world
  = (StreamingHttpResponse
       (stream_generator Scenario.process (Scenario.stream [Scenario.live_profile])
          (lock_for "lock:1:1" Scenario.world)) "video/MP2T",
     emit (EvPopen Scenario.ffmpeg_cmd) (granted "lock:1:1" Scenario.world)) /\
  gen_state (stream_generator Scenario.process
               (Scenario.stream [Scenario.live_profile])
               (lock_for "lock:1:1" Scenario.world)) = GenCreated /\
  lock_store (emit (EvPopen Scenario.ffmpeg_cmd)
                (granted "lock:1:1" Scenario.world))
    !! lock_key (lock_for "lock:1:1" Scenario.world)
  = Some {| holder := lock_token (lock_for "lock:1:1" Scenario.world);
            expires_at := (now Scenario.world + 120)%nat |}.
Proof.
  apply (started_process_is_streamed
           (Scenario.env [Scenario.live_profile] Scenario.starts) 101
           (Scenario.channel [Scenario.live_profile])
           (Scenario.stream [Scenario.live_profile]) Scenario.world
           Scenario.live_profile (lock_for "lock:1:1" Scenario.world)
           (granted "lock:1:1" Scenario.world) Scenario.ffmpeg_cmd
           Scenario.process).
  - scenario_resolves.
  - reflexivity.
  - vm_compute; reflexivity.
  - vm_compute; reflexivity.
  - reflexivity.
Defined.

(** ** The profile list, lines 64-66 *)

Lemma filter_filter_same {A} (p : A -> bool) (l : list A) :
  List.filter p (List.filter p l) = List.filter p l.
Proof.
  induction l as [|x l IH]; [reflexivity|]. cbn.
  destruct (p x) eqn:Hx; [|exact IH]. cbn. rewrite Hx, IH. reflexivity.
Qed.

(** X5. Only the first profile flagged as default is ever considered as
    one: lines 65-66 take the first default and drop every profile with
    the flag from the rest, so allocation goes as if the account had that
    default followed by its non-default profiles and nothing else. *)
Theorem later_defaults_are_ignored env acct acct' w d :
  List.find M3UAccountProfile.is_default (M3UAccount.profiles acct) = Some d ->
  M3UAccount.profiles acct'
  = d :: List.filter (fun q => negb (M3UAccountProfile.is_default q))
           (M3UAccount.profiles acct) ->
  allocate env acct w = allocate env acct' w.
Proof.
  intros Hd Hps. unfold allocate. rewrite Hps.
  assert (scan_list (d :: List.filter
                             (fun q => negb (M3UAccountProfile.is_default q))
                             (M3UAccount.profiles acct))
          = scan_list (M3UAccount.profiles acct)) as ->; [|reflexivity].
  apply find_some in Hd as Hdd. destruct Hdd as [_ Hflag].
  unfold scan_list. rewrite Hd. cbn [List.find List.filter].
  rewrite Hflag. cbn [negb]. rewrite filter_filter_same. reflexivity.
Qed.

Lemma later_defaults_are_ignored_witness :
  allocate (Scenario.env Scenario.three_profiles Scenario.starts)
    (Scenario.account
       [Scenario.retired; Scenario.live_profile; Scenario.second_default;
        Scenario.backup])
    Scenario.busy_world
  = allocate (Scenario.env Scenario.three_profiles Scenario.starts)
      (Scenario.account
         [Scenario.live_profile; Scenario.retired; Scenario.backup])
      Scenario.busy_world.
Proof.
  apply (later_defaults_are_ignored
           (Scenario.env Scenario.three_profiles Scenario.starts)
           (Scenario.account
              [Scenario.retired; Scenario.live_profile; Scenario.second_default;
               Scenario.backup])
           (Scenario.account
              [Scenario.live_profile; Scenario.retired; Scenario.backup])
           Scenario.busy_world Scenario.live_profile).
  - reflexivity.
  - reflexivity.
Defined.

(** ** Reading the chosen profile back, lines 94-97 *)

(** X6. When the first free slot has been locked and reading the profile
    back from the table on line 96 raises, the answer is "Error preparing
    stream" with that cause, [release] is not called, and the slot stays
    held for its 120 time units. *)
Theorem profile_row_gone_keeps_slot env stream_id channel stream w d pre p i post e :
  resolves env stream_id channel stream ->
  redis_up w = true ->
  List.find M3UAccountProfile.is_default
    (M3UAccount.profiles (Stream.m3u_account stream)) = Some d ->
  candidates d (M3UAccount.profiles (Stream.m3u_account stream))
  = pre ++ (p, i) :: post ->
  Forall (fun c => slot_held w c = true) pre ->
  slot_held w (p, i) = false ->
  objects_get "M3UAccountProfile"
    (fun q => M3UAccountProfile.id q =? M3UAccountProfile.id p)
    (M3UAccountProfile_objects env) = Err e ->
  let key := slot_key (M3UAccountProfile.id p) i in
  let w1 := granted key (refused (map candidate_key pre) w) in
  stream_view env stream_id w
  = (HttpResponseServerError ("Error preparing stream: " +:+ exc_str e), w1) /\
  held (lock_store w1) (now w1) key = true /\
  trace w1
  = trace w ++ map (fun c => EvAcquire (candidate_key c) false) pre
            ++ [EvAcquire key true].
Proof.
  intros Hres Hup Hd Hc Hpre Hfree Hrow key w1.
  split; [|split].
  - unfold stream_view. rewrite (stream_view_try_resolved _ _ _ _ _ Hres).
    rewrite (bind_raised _ _ w e w1); [reflexivity|].
    rewrite (allocate_scan _ _ _ _ Hup Hd). unfold scan_result.
    rewrite Hc, (first_free_found _ _ _ _ Hpre Hfree). cbn [fst snd].
    rewrite Hrow. reflexivity.
  - subst w1. unfold held. rewrite granted_entry. cbn. apply Nat.ltb_lt. lia.
  - subst w1. destruct (granted_frame key (refused (map candidate_key pre) w))
      as (_ & _ & _ & ->).
    destruct (refused_frame (map candidate_key pre) w) as (_ & _ & _ & ->).
    rewrite map_map, <- app_assoc. reflexivity.
Qed.

Lemma profile_row_gone_keeps_slot_witness :
  let key := slot_key (M3UAccountProfile.id Scenario.live_profile) 1 in
  let w1 := granted key (refused (map candidate_key []) Scenario.world) in
  stream_view
    {| REDIS_HOST := Some "localhost"; DEFAULT_USER_AGENT := None;
       Channel_objects := [Scenario.channel [Scenario.live_profile]];
       M3UAccountProfile_objects := [];
       StreamProfile_objects := [Scenario.ffmpeg]; CoreSettings_objects := [];
       str_format := Scenario.format; Popen := Scenario.starts |}
    101 Scenario.world
  = (HttpResponseServerError
       ("Error preparing stream: " +:+ exc_str (DoesNotExist "M3UAccountProfile")),
     w1) /\
  held (lock_store w1) (now w1) key = true /\
  trace w1
  = trace Scenario.world ++ map (fun c => EvAcquire (candidate_key c) false) []
      ++ [EvAcquire key true].
Proof.
  intros key w1.
  apply (profile_row_gone_keeps_slot
           {| REDIS_HOST := Some "localhost"; DEFAULT_USER_AGENT := None;
              Channel_objects := [Scenario.channel [Scenario.live_profile]];
              M3UAccountProfile_objects := [];
              StreamProfile_objects := [Scenario.ffmpeg];
              CoreSettings_objects := [];
              str_format := Scenario.format; Popen := Scenario.starts |}
           101 (Scenario.channel [Scenario.live_profile])
           (Scenario.stream [Scenario.live_profile]) Scenario.world
           Scenario.live_profile [] Scenario.live_profile 1 []
           (DoesNotExist "M3UAccountProfile")).
  - scenario_resolves.
  - reflexivity.
  - reflexivity.
  - vm_compute; reflexivity.
  - constructor.
  - vm_compute; reflexivity.
  - reflexivity.
Defined.

(** ** What a request does to the outside, lines 38-143 *)

Lemma allocate_events env acct w :
  redis_up w = true ->
  exists keys,
    (trace (snd (allocate env acct w))
     = trace w ++ map (fun k => EvAcquire k false) keys /\
     forall p l, fst (allocate env acct w) <> Val (p, l)) \/
    (exists k,
        trace (snd (allocate env acct w))
        = trace w ++ map (fun k => EvAcquire k false) keys ++ [EvAcquire k true] /\
        forall p l, fst (allocate env acct w) = Val (p, l) -> lock_key l = k).
Proof.
  intros Hup.
  destruct (List.find M3UAccountProfile.is_default (M3UAccount.profiles acct))
    as [d|] eqn:Hd.
  - rewrite (allocate_scan _ _ _ _ Hup Hd). unfold scan_result.
    destruct (first_free _ _) as [pre [c|]]; cbn [fst snd].
    + exists (map candidate_key pre). right. exists (candidate_key c).
      assert (trace (granted (candidate_key c) (refused (map candidate_key pre) w))
              = trace w ++ map (fun k => EvAcquire k false) (map candidate_key pre)
                  ++ [EvAcquire (candidate_key c) true]) as Htr.
      { cbn [granted emit trace set_store bump_token].
        destruct (refused_frame (map candidate_key pre) w) as (_ & _ & _ & ->).
        rewrite <- app_assoc. reflexivity. }
      destruct (objects_get _ _ _); cbn [fst snd]; split; try exact Htr.
      * intros p l [= _ <-]. reflexivity.
      * intros p l H. discriminate H.
    + exists (map candidate_key pre). left. cbn [fst snd].
      destruct (refused_frame (map candidate_key pre) w) as (_ & _ & _ & ->).
      split; [reflexivity|]. intros p l H. discriminate H.
  - rewrite (allocate_no_default _ _ _ Hd). exists []. left. cbn.
    rewrite app_nil_r. split; [reflexivity|]. intros p l H. discriminate H.
Qed.

(** X7. Whatever the request and the answer, what it did to the outside is
    a run of refused lock attempts followed by nothing, or by one granted
    lock, or by one granted lock and one process start, or by those and the
    release of that lock: a process is never started without the lock, and
    never more than one. *)
Theorem process_only_under_lock env stream_id w :
  redis_up w = true ->
  exists keys tail,
    trace (snd (stream_view env stream_id w))
    = trace w ++ map (fun k => EvAcquire k false) keys ++ tail /\
    request_tail tail.
Proof.
  intros Hup.
  assert (exists keys tail,
             trace w = trace w ++ map (fun k => EvAcquire k false) keys ++ tail /\
             request_tail tail) as Hnothing.
  { exists [], []. cbn. rewrite app_nil_r. split; [reflexivity|constructor]. }
  unfold stream_view, stream_view_try, bind.
  destruct (REDIS_HOST env); cbn [ret raise]; [|exact Hnothing].
  rewrite lift_pure. destruct (objects_get _ _ _) as [ch|e]; [|exact Hnothing].
  destruct (Channel.streams ch) as [|st rest]; [exact Hnothing|].
  destruct (allocate_events env (Stream.m3u_account st) w Hup) as (keys & Hev).
  destruct (allocate env (Stream.m3u_account st) w) as [[[p l]|e|r] w0] eqn:Ha;
    cbn [fst snd] in Hev.
  - destruct Hev as [[_ Hno]|(k & Htr & Hk)]; [exfalso; eapply Hno; reflexivity|].
    specialize (Hk p l eq_refl). subst k.
    pose proof (prepare_pure env ch p
                  (str_or (Stream.custom_url st) (Stream.url st)) w0) as Hpure.
    pose proof (prepare_outcome env ch p
                  (str_or (Stream.custom_url st) (Stream.url st)) w0) as Hout.
    destruct (prepare _ _ _ _ _) as [[cmd|e|r] wp]; cbn in Hpure, Hout; subst;
      [| |contradiction].
    + unfold launch, try_except, popen, bind.
      destruct (Popen env cmd) as [proc|e];
        cbn [ret return_ snd release emit trace set_store].
      * exists keys, [EvAcquire (lock_key l) true; EvPopen cmd].
        rewrite Htr, <- !app_assoc. split; [reflexivity|constructor].
      * exists keys, [EvAcquire (lock_key l) true; EvPopen cmd;
                      EvRelease (lock_key l)].
        rewrite Htr, <- !app_assoc. split; [reflexivity|constructor].
    + exists keys, [EvAcquire (lock_key l) true]. cbn [snd].
      split; [exact Htr|constructor].
  - destruct Hev as [[Htr _]|(k & Htr & _)]; cbn [snd].
    + exists keys, []. rewrite app_nil_r. split; [exact Htr|constructor].
    + exists keys, [EvAcquire k true]. split; [exact Htr|constructor].
  - destruct Hev as [[Htr _]|(k & Htr & _)]; cbn [snd].
    + exists keys, []. rewrite app_nil_r. split; [exact Htr|constructor].
    + exists keys, [EvAcquire k true]. split; [exact Htr|constructor].
Qed.

Lemma process_only_under_lock_witness :
  exists keys tail,
    trace (snd (stream_view
                  (Scenario.env Scenario.three_profiles Scenario.fails_to_start)
                  101 Scenario.busy_world))
    = trace Scenario.busy_world ++ map (fun k => EvAcquire k false) keys ++ tail /\
    request_tail tail.
Proof.
  apply (process_only_under_lock
           (Scenario.env Scenario.three_profiles Scenario.fails_to_start) 101
           Scenario.busy_world).
  reflexivity.
Defined.

(** ** The command, lines 113-130 *)

Lemma forallb_snoc (P : ascii -> bool) (a : string) (c : ascii) :
  forallb P (list_ascii_of_string (a +:+ String c EmptyString))
  = forallb P (list_ascii_of_string a) && P c.
Proof.
  induction a as [|x a IH].
  - change (forallb P [c] = true && P c). cbn. destruct (P c); reflexivity.
  - rewrite append_cons. cbn [list_ascii_of_string forallb].
    rewrite IH, andb_assoc. reflexivity.
Qed.

Lemma is_word_snoc (word : string) (c : ascii) :
  is_space c = false ->
  word = EmptyString \/ is_word word = true ->
  is_word (word +:+ String c EmptyString) = true.
Proof.
  intros Hc [->|Hw].
  - change (is_word (String c EmptyString) = true). cbn. rewrite Hc. reflexivity.
  - destruct word as [|x word]; [discriminate Hw|].
    unfold is_word in *. rewrite append_cons.
    rewrite <- append_cons, forallb_snoc, Hw, Hc. reflexivity.
Qed.

Lemma split_ws_words s :
  forall word,
    word = EmptyString \/ is_word word = true ->
    Forall (fun a => is_word a = true) (split_ws s word).
Proof.
  induction s as [|c s IH]; intros word Hword; cbn [split_ws].
  - destruct Hword as [->|Hw]; [constructor|].
    destruct word; [discriminate Hw|]. repeat constructor. exact Hw.
  - destruct (is_space c) eqn:Hc.
    + destruct Hword as [->|Hw]; [apply IH; left; reflexivity|].
      destruct word; [discriminate Hw|].
      constructor; [exact Hw|apply IH; left; reflexivity].
    + apply IH. right. apply is_word_snoc; assumption.
Qed.

Lemma append_snoc (a : string) c (s : string) :
  (a +:+ String c EmptyString) +:+ s = a +:+ String c s.
Proof.
  induction a as [|x a IH]; [reflexivity|]. rewrite !append_cons, IH. reflexivity.
Qed.

Lemma split_ws_words_of s :
  forall word,
    word = EmptyString \/ is_word word = true ->
    words_of (word +:+ s) (split_ws s word).
Proof.
  induction s as [|c s IH]; intros word Hword; cbn [split_ws].
  - destruct Hword as [->|Hw]; [apply words_end|].
    rewrite append_empty_r. destruct word; [discriminate Hw|].
    apply words_last. exact Hw.
  - destruct (is_space c) eqn:Hc.
    + destruct Hword as [->|Hw].
      * apply words_space; [exact Hc|]. apply (IH EmptyString). left. reflexivity.
      * destruct word as [|x word]; [discriminate Hw|].
        apply words_next; [exact Hw|exact Hc|].
        apply (IH EmptyString). left. reflexivity.
    + rewrite <- append_snoc. apply IH. right. apply is_word_snoc; assumption.
Qed.

(** X8. The command handed to Popen is the playback profile's command
    followed by the words of the formatted parameters, as [str.split()]
    gives them: the parameters template is formatted with the user agent
    and the rewritten URL, whitespace separates the arguments and none of
    them is empty or holds whitespace, so a user agent or a URL with a
    space in it arrives as several arguments. *)
Theorem command_arguments_are_words env channel p url w cmd :
  fst (prepare env channel p url w) = Val cmd ->
  exists stream_profile stream_url parameters args,
    resolve_stream_profile env channel = Ok stream_profile /\
    url_rewrite (M3UAccountProfile.search_pattern p)
      (M3UAccountProfile.replace_pattern p) url = Ok stream_url /\
    str_format env (StreamProfile.parameters stream_profile)
      (str_or (StreamProfile.user_agent stream_profile)
         (default "Mozilla/5.0" (DEFAULT_USER_AGENT env)))
      stream_url = Ok parameters /\
    cmd = StreamProfile.command stream_profile :: args /\
    words_of parameters args /\
    Forall (fun a => is_word a = true) args.
Proof.
  unfold prepare, bind, lift, ret, raise.
  destruct (url_rewrite _ _ _) as [stream_url|]; [|discriminate].
  destruct (resolve_stream_profile _ _) as [sp|]; [|discriminate].
  destruct (str_format _ _ _ _) as [params|] eqn:Hf; [|discriminate].
  intros [= <-]. exists sp, stream_url, params, (py_split params).
  split; [reflexivity|]. split; [reflexivity|]. split; [exact Hf|].
  split; [reflexivity|]. split.
  - apply (split_ws_words_of params EmptyString). left. reflexivity.
  - apply split_ws_words. left. reflexivity.
Qed.

Lemma command_arguments_are_words_witness :
  exists stream_profile stream_url parameters args,
    resolve_stream_profile
      (Scenario.env [Scenario.live_profile] Scenario.starts)
      (Scenario.channel [Scenario.live_profile]) = Ok stream_profile /\
    url_rewrite (M3UAccountProfile.search_pattern Scenario.live_profile)
      (M3UAccountProfile.replace_pattern Scenario.live_profile)
      "http://src/live/1" = Ok stream_url /\
    str_format (Scenario.env [Scenario.live_profile] Scenario.starts)
      (StreamProfile.parameters stream_profile)
      (str_or (StreamProfile.user_agent stream_profile)
         (default "Mozilla/5.0"
            (DEFAULT_USER_AGENT
               (Scenario.env [Scenario.live_profile] Scenario.starts))))
      stream_url = Ok parameters /\
    Scenario.ffmpeg_cmd = StreamProfile.command stream_profile :: args /\
    words_of parameters args /\
    Forall (fun a => is_word a = true) args.
Proof.
  apply (command_arguments_are_words
           (Scenario.env [Scenario.live_profile] Scenario.starts)
           (Scenario.channel [Scenario.live_profile]) Scenario.live_profile
           "http://src/live/1" Scenario.world Scenario.ffmpeg_cmd).
  vm_compute; reflexivity.
Defined.

(** X9. For a channel that has a playback profile of its own, the command
    does not depend on the CoreSettings and StreamProfile tables: the
    default-stream-profile setting is read only when the channel has
    none. *)
Theorem own_stream_profile_needs_no_default env env' channel p url w sp :
  Channel.stream_profile channel = Some sp ->
  str_format env = str_format env' ->
  DEFAULT_USER_AGENT env = DEFAULT_USER_AGENT env' ->
  prepare env channel p url w = prepare env' channel p url w.
Proof.
  intros Hsp Hf Hua. unfold prepare, resolve_stream_profile.
  rewrite Hsp, Hf, Hua. reflexivity.
Qed.

Lemma own_stream_profile_needs_no_default_witness :
  prepare (Scenario.env [Scenario.live_profile] Scenario.starts)
    (Scenario.channel [Scenario.live_profile]) Scenario.live_profile
    "http://src/live/1" Scenario.world
  = prepare
      {| REDIS_HOST := None; DEFAULT_USER_AGENT := None;
         Channel_objects := []; M3UAccountProfile_objects := [];
         StreamProfile_objects := [];
         CoreSettings_objects :=
           [{| CoreSettings.key := "default-stream-profile";
               CoreSettings.value := 9 |}];
         str_format := Scenario.format; Popen := Scenario.fails_to_start |}
      (Scenario.channel [Scenario.live_profile]) Scenario.live_profile
      "http://src/live/1" Scenario.world.
Proof.
  apply (own_stream_profile_needs_no_default
           (Scenario.env [Scenario.live_profile] Scenario.starts)
           {| REDIS_HOST := None; DEFAULT_USER_AGENT := None;
              Channel_objects := []; M3UAccountProfile_objects := [];
              StreamProfile_objects := [];
              CoreSettings_objects :=
                [{| CoreSettings.key := "default-stream-profile";
                    CoreSettings.value := 9 |}];
              str_format := Scenario.format; Popen := Scenario.fails_to_start |}
           (Scenario.channel [Scenario.live_profile]) Scenario.live_profile
           "http://src/live/1" Scenario.world Scenario.ffmpeg).
  - reflexivity.
  - reflexivity.
  - reflexivity.
Defined.

(** ** The relay, lines 145-159 *)

Lemma gen_next_yields g w chunk b rest :
  gen_state g <> GenClosed ->
  stdout (gen_proc g) = ReadBytes (b :: chunk) :: rest ->
  gen_step GenNext g w
  = (Yielded (b :: chunk),
     {| gen_proc := {| stdout := rest;
                       terminate_raises := terminate_raises (gen_proc g) |};
        gen_s := gen_s g; gen_lock := gen_lock g; gen_state := GenSuspended |},
     emit EvRead w).
Proof.
  intros Hs Hout. unfold gen_step, gen_resume. rewrite Hout.
  destruct (gen_state g); [reflexivity|reflexivity|contradiction].
Qed.

Lemma gen_next_ends g w r :
  gen_state g <> GenClosed ->
  ending (stdout (gen_proc g)) = Some r ->
  gen_step GenNext g w
  = (r, gen_closed g,
     snd (release (gen_lock g) (emit EvTerminate (emit EvRead w)))).
Proof.
  intros Hs Hend. unfold gen_step, gen_resume.
  destruct (stdout (gen_proc g)) as [|[[|b chunk]|e] rest]; cbn in Hend;
    try discriminate Hend; injection Hend as <-; rewrite gen_leave_spec;
    destruct (gen_state g); try reflexivity; contradiction.
Qed.

Lemma relay_call op steps g w :
  relay (Call op :: steps) g w
  = (fst (fst (gen_step op g w))
       :: fst (fst (relay steps (snd (fst (gen_step op g w)))
                      (snd (gen_step op g w)))),
     snd (fst (relay steps (snd (fst (gen_step op g w))) (snd (gen_step op g w)))),
     snd (relay steps (snd (fst (gen_step op g w))) (snd (gen_step op g w)))).
Proof.
  cbn [relay]. destruct (gen_step op g w) as [[r g1] w1].
  cbn [fst snd]. destruct (relay steps g1 w1) as [[rs g2] w2]. reflexivity.
Qed.

(** X10. The relay forwards what the process writes, unchanged and in
    order: over a process whose reads give the chunks [cs], each with
    bytes, and then no bytes or an error, one [next] more than there are
    chunks yields exactly [cs] and then stops the iteration (or raises that
    error); as many reads were made, then [terminate] and [release] once
    each, and the generator is closed. *)
Theorem relay_forwards_chunks cs :
  forall g w tail r,
    gen_state g <> GenClosed ->
    stdout (gen_proc g) = map ReadBytes cs ++ tail ->
    forallb has_bytes cs = true ->
    ending tail = Some r ->
    let run := relay (repeat (Call GenNext) (S (length cs))) g w in
    fst (fst run) = map Yielded cs ++ [r] /\
    gen_state (snd (fst run)) = GenClosed /\
    trace (snd run)
    = trace w ++ repeat EvRead (S (length cs))
        ++ [EvTerminate; EvRelease (lock_key (gen_lock g))].
Proof.
  induction cs as [|c cs IH]; intros g w tail r Hs Hout Hbytes Hend run;
    subst run.
  - cbn [map app] in Hout. rewrite <- Hout in Hend.
    change (repeat (Call GenNext) (S (length (@nil (list Byte.byte)))))
      with [Call GenNext].
    rewrite relay_call, (gen_next_ends g w r Hs Hend).
    cbn [relay fst snd release emit trace set_store length repeat map app].
    rewrite <- !app_assoc. auto.
  - cbn [forallb] in Hbytes. apply andb_prop in Hbytes as [Hc Hbytes].
    destruct c as [|b c]; [discriminate Hc|].
    cbn [map app] in Hout.
    change (repeat (Call GenNext) (S (length ((b :: c) :: cs))))
      with (Call GenNext :: repeat (Call GenNext) (S (length cs))).
    rewrite relay_call, (gen_next_yields g w c b _ Hs Hout). cbn [fst snd].
    specialize (IH {| gen_proc := {| stdout := map ReadBytes cs ++ tail;
                                     terminate_raises :=
                                       terminate_raises (gen_proc g) |};
                      gen_s := gen_s g; gen_lock := gen_lock g;
                      gen_state := GenSuspended |}
                   (emit EvRead w) tail r ltac:(discriminate) eq_refl Hbytes Hend).
    cbn zeta in IH. destruct IH as (Hrs & Hst & Htr).
    rewrite Hrs, Htr. split; [reflexivity|]. split; [exact Hst|].
    cbn [emit trace gen_lock length].
    change (repeat EvRead (S (S (length cs))))
      with (EvRead :: repeat EvRead (S (length cs))).
    rewrite <- !app_assoc. reflexivity.
Qed.

Lemma relay_forwards_chunks_witness :
  let g := stream_generator Scenario.gone_process
             (Scenario.stream [Scenario.live_profile])
             (lock_for "lock:1:1" Scenario.world) in
  let cs := [[Byte.x47; Byte.x40]; [Byte.x47]] in
  let run := relay (repeat (Call GenNext) (S (length cs))) g Scenario.world in
  fst (fst run) = map Yielded cs ++ [StopIteration] /\
  gen_state (snd (fst run)) = GenClosed /\
  trace (snd run)
  = trace Scenario.world ++ repeat EvRead (S (length cs))
      ++ [EvTerminate; EvRelease (lock_key (gen_lock g))].
Proof.
  intros g cs run.
  apply (relay_forwards_chunks cs g Scenario.world [] StopIteration).
  - discriminate.
  - reflexivity.
  - reflexivity.
  - reflexivity.
Defined.

Lemma relay_store_after steps :
  forall g w,
    redis_up w = true ->
    gen_state g = GenSuspended \/
    (gen_state g = GenCreated /\ first_call steps = Some GenNext) ->
    gen_state (snd (fst (relay steps g w))) = GenClosed ->
    lock_store (snd (relay steps g w))
    = delete_if_owned (lock_store w) (lock_key (gen_lock g))
        (lock_token (gen_lock g)).
Proof.
  induction steps as [|[op|d] steps IH]; intros g w Hup Hlive Hend.
  - cbn in Hend. destruct Hlive as [H|[H _]]; congruence.
  - cbn [relay] in *.
    assert (gen_state g = GenSuspended \/ (gen_state g = GenCreated /\ op = GenNext))
      as Hlive'.
    { destruct Hlive as [H|[H1 H2]]; [left; exact H|right].
      cbn in H2. split; congruence. }
    pose proof (gen_step_shape op g w Hlive') as Hshape.
    destruct (gen_step op g w) as [[r g1] w1].
    inversion Hshape as [chunk g1' Hs Hl Ht|r' w0 Hr Hw0]; subst.
    + specialize (IH g1 (emit EvRead w) Hup (or_introl Hs)).
      destruct (relay steps g1 (emit EvRead w)) as [[rs g2] w2]. cbn in *.
      rewrite (IH Hend), Hl. reflexivity.
    + destruct (relay_closed steps (gen_closed g)
                  (snd (release (gen_lock g) (emit EvTerminate w0))) eq_refl)
        as (Hw & _ & _).
      destruct (relay steps (gen_closed g) _) as [[rs g2] w2].
      cbn [snd] in Hw |- *. rewrite Hw.
      rewrite (proj2 (waiting_trace steps _)).
      destruct Hw0 as [->| ->]; cbn; rewrite Hup; reflexivity.
  - cbn [relay] in *. rewrite (IH g (tick d w)); [reflexivity|exact Hup| |exact Hend].
    destruct Hlive as [H|[H1 H2]]; auto.
Qed.

(** X11. A request that streams gives its slot back: once the relay has
    been started and has ended, in whatever way and after whatever time,
    the key of the lock that the request acquired is no longer in the lock
    store.  The relay is followed on its own: no other request writes to
    the store while it runs. *)
Theorem slot_is_free_after_relay env stream_id w g ct w1 steps :
  redis_up w = true ->
  stream_view env stream_id w = (StreamingHttpResponse g ct, w1) ->
  first_call steps = Some GenNext ->
  gen_state (snd (fst (relay steps g w1))) = GenClosed ->
  lock_store (snd (relay steps g w1)) !! lock_key (gen_lock g) = None.
Proof.
  intros Hup Hview Hfirst Hend.
  destruct (stream_view_streams _ _ _ _ _ _ Hup Hview)
    as (st & p & w0 & cmd & Ha & -> & Hcreated & _).
  destruct (allocate_holds _ _ _ _ _ _ Hup Ha) as (Hentry & Hup0 & _).
  rewrite relay_store_after; [|exact Hup0|right; auto|exact Hend].
  unfold delete_if_owned. cbn [emit lock_store]. rewrite Hentry. cbn [holder].
  rewrite Nat.eqb_refl. apply lookup_delete_eq.
Qed.

Lemma slot_is_free_after_relay_witness :
  let env := Scenario.env [Scenario.live_profile] Scenario.starts in
  let g := stream_generator Scenario.process
             (Scenario.stream [Scenario.live_profile])
             (lock_for "lock:1:1" Scenario.world) in
  let w1 := snd (stream_view env 101 Scenario.world) in
  lock_store (snd (relay Scenario.watching g w1)) !! lock_key (gen_lock g) = None.
Proof.
  intros env g w1.
  apply (slot_is_free_after_relay env 101 Scenario.world g "video/MP2T" w1
           Scenario.watching).
  - reflexivity.
  - vm_compute; reflexivity.
  - reflexivity.
  - vm_compute; reflexivity.
Defined.

(** ** The escaping step once more, line 107 *)

Lemma dollar_to_backslash_length s :
  String.length (dollar_to_backslash s) = String.length s.
Proof.
  induction s as [|c s IH]; [reflexivity|].
  rewrite dollar_to_backslash_cons. cbn [String.length]. rewrite IH. reflexivity.
Qed.

Lemma dollar_to_backslash_head s :
  starts_with_digit (dollar_to_backslash s) = starts_with_digit s.
Proof.
  destruct s as [|c s]; [reflexivity|]. rewrite dollar_to_backslash_cons.
  cbn [starts_with_digit].
  destruct ((c =? "$")%char && starts_with_digit s) eqn:H; [|reflexivity].
  apply andb_prop in H as [H _]. apply Ascii.eqb_eq in H. subst c. reflexivity.
Qed.

Lemma dollar_to_backslash_twice s :
  dollar_to_backslash (dollar_to_backslash s) = dollar_to_backslash s.
Proof.
  induction s as [|c s IH]; [reflexivity|].
  rewrite !dollar_to_backslash_cons, dollar_to_backslash_head, IH.
  destruct ((c =? "$")%char && starts_with_digit s) eqn:H.
  - reflexivity.
  - rewrite H. reflexivity.
Qed.

(** X12. The escaping of line 107 never raises, whatever the replace
    pattern: it returns the pattern with every [$] that a digit follows
    turned into a backslash, all other characters and the length
    unchanged. *)
Theorem escaping_never_raises replace_pattern :
  safe_replace_pattern replace_pattern
  = Ok (dollar_to_backslash replace_pattern) /\
  String.length (dollar_to_backslash replace_pattern)
  = String.length replace_pattern.
Proof.
  split; [apply safe_replace_pattern_spec|apply dollar_to_backslash_length].
Qed.

(** X13. The escaping is idempotent: applied to its own result it changes
    nothing, so a replace pattern that was escaped before is not escaped
    further. *)
Theorem escaping_is_idempotent replace_pattern safe :
  safe_replace_pattern replace_pattern = Ok safe ->
  safe_replace_pattern safe = Ok safe.
Proof.
  rewrite safe_replace_pattern_spec. intros [= <-].
  rewrite safe_replace_pattern_spec, dollar_to_backslash_twice. reflexivity.
Qed.

Lemma escaping_is_idempotent_witness :
  safe_replace_pattern (String "\" "1proxy and $x") = Ok (String "\" "1proxy and $x").
Proof.
  apply (escaping_is_idempotent "$1proxy and $x" (String "\" "1proxy and $x")).
  vm_compute; reflexivity.
Defined.

(** ** The catch-all search pattern, line 110 *)

Lemma substring_whole s : substring 0 (String.length s) s = s.
Proof. induction s as [|c s IH]; [reflexivity|]. cbn. rewrite IH. reflexivity. Qed.

Lemma run_is_whole (f : ascii -> bool) s :
  forall m,
    forallb f (list_ascii_of_string s) = true ->
    (m <= String.length s)%nat ->
    (forall x t, skip_chars m s = String x t -> f x = false) ->
    m = String.length s.
Proof.
  induction s as [|x s IH]; intros m Hall Hle Hstop.
  - cbn in Hle. cbn. lia.
  - cbn in Hall. apply andb_prop in Hall as [Hx Hall].
    destruct m as [|m].
    + specialize (Hstop x s eq_refl). congruence.
    + change (S m <= S (String.length s))%nat in Hle.
      cbn [String.length]. f_equal.
      apply IH; [exact Hall|apply le_S_n, Hle|exact Hstop].
Qed.

(** [.*] takes a whole line, whatever may follow. *)
Lemma match_at_catch_all pos s :
  single_line s = true ->
  match_at catch_all pos s false
  = Some {| m_start := pos; m_end := (pos + String.length s)%nat;
            m_text := s; m_groups := [] |}.
Proof.
  intros Hline. unfold match_at, catch_all. cbn [matches andb].
  destruct (star_class_run not_newline
              (fun (p' : nat) (_ : string) (c' : caps) =>
                 Some {| m_start := pos; m_end := p';
                         m_text := substring 0 (p' - pos) s; m_groups := c' |})
              ltac:(discriminate)
              (S (String.length s)) s pos [] (Nat.le_succ_diag_r _))
    as (m & Hm & Hle & Hstop & _ & _).
  etransitivity; [exact Hm|].
  rewrite (run_is_whole not_newline s m Hline Hle Hstop).
  replace (pos + String.length s - pos)%nat with (String.length s) by lia.
  rewrite substring_whole. reflexivity.
Qed.

Lemma sub_from_skip_all r expand s :
  forall pos,
    sub_from r expand pos s (String.length s)
    = sub_from r expand (pos + String.length s) EmptyString 0.
Proof.
  induction s as [|c s IH]; intros pos; cbn [String.length].
  - rewrite Nat.add_0_r. reflexivity.
  - change (sub_from r expand pos (String c s) (S (String.length s)))
      with (sub_from r expand (S pos) s (String.length s)).
    rewrite IH. replace (pos + S (String.length s))%nat
      with (S pos + String.length s)%nat by lia.
    reflexivity.
Qed.

Lemma has_backslash_plain s : no_char "\" s = true -> has_backslash s = false.
Proof.
  unfold has_backslash. induction s as [|c s IH]; [reflexivity|].
  cbn [no_char list_ascii_of_string existsb].
  intros [Hc Hs]%andb_prop. apply negb_true_iff in Hc. rewrite Hc, (IH Hs).
  reflexivity.
Qed.

(** X14. With the search pattern [.*] and a replace pattern of plain text,
    a URL of one line that is not empty is rewritten to the replacement
    twice over: [.*] matches the whole URL and then once more, emptily, at
    its end.  An empty URL gives the replacement once. *)
Theorem catch_all_replaces_twice replace_pattern input_url :
  plain replace_pattern = true ->
  single_line input_url = true ->
  url_rewrite (Compiles catch_all) replace_pattern input_url
  = Ok match input_url with
       | EmptyString => replace_pattern
       | String _ _ => replace_pattern +:+ replace_pattern
       end.
Proof.
  intros [Hd Hb]%andb_prop Hline. unfold url_rewrite.
  rewrite safe_replace_pattern_spec, (dollar_to_backslash_plain _ Hd).
  unfold re_sub. rewrite (has_backslash_plain _ Hb). f_equal.
  destruct input_url as [|c url].
  - cbn [sub_from]. rewrite (match_at_catch_all 0 EmptyString eq_refl). reflexivity.
  - cbn [sub_from]. rewrite (match_at_catch_all 0 (String c url) Hline).
    cbn [m_end String.length Nat.add Nat.eqb Nat.sub].
    rewrite Nat.sub_0_r, sub_from_skip_all. cbn [sub_from].
    rewrite (match_at_catch_all _ EmptyString eq_refl). reflexivity.
Qed.

Lemma catch_all_replaces_twice_witness :
  url_rewrite (Compiles catch_all) "http://proxy/live" "http://src/live/1"
  = Ok ("http://proxy/live" +:+ "http://proxy/live").
Proof.
  apply (catch_all_replaces_twice "http://proxy/live" "http://src/live/1").
  - reflexivity.
  - reflexivity.
Defined.

(** ** The lock keys, line 83 *)

Lemma pretty_N_char_no_colon x : (pretty_N_char x =? ":")%char = false.
Proof. unfold pretty_N_char. repeat case_match; reflexivity. Qed.

Lemma pretty_N_go_no_colon x :
  forall s, no_char ":" s = true -> no_char ":" (pretty_N_go x s) = true.
Proof.
  induction (N.lt_wf_0 x) as [x _ IH]; intros s Hs.
  assert (x = 0 \/ 0 < x)%N as [->|Hpos] by lia.
  - rewrite pretty_N_go_0. exact Hs.
  - rewrite pretty_N_go_step by exact Hpos. apply IH.
    + apply N.div_lt; [exact Hpos|reflexivity].
    + cbn [no_char]. rewrite pretty_N_char_no_colon, Hs. reflexivity.
Qed.

Lemma pretty_N_no_colon (x : N) : no_char ":" (pretty x) = true.
Proof.
  unfold pretty, pretty_N. case_decide; [reflexivity|].
  apply pretty_N_go_no_colon. reflexivity.
Qed.

Lemma pretty_Z_no_colon (z : Z) : no_char ":" (pretty z) = true.
Proof.
  destruct z as [|p|p]; [reflexivity| |].
  - apply (pretty_N_no_colon (N.pos p)).
  - change (pretty (Z.neg p)) with (String "-" (pretty (N.pos p))).
    cbn [no_char]. rewrite (pretty_N_no_colon (N.pos p)). reflexivity.
Qed.

Lemma split_at_colon a :
  forall a' b b',
    no_char ":" a = true -> no_char ":" a' = true ->
    a +:+ String ":" b = a' +:+ String ":" b' ->
    a = a' /\ b = b'.
Proof.
  induction a as [|x a IH]; intros [|x' a'] b b' Ha Ha' E.
  - injection E as <-. auto.
  - rewrite append_cons in E. injection E as <- _.
    cbn in Ha'. discriminate Ha'.
  - rewrite append_cons in E. injection E as -> _.
    cbn in Ha. discriminate Ha.
  - rewrite !append_cons in E. injection E as <- E.
    cbn [no_char] in Ha, Ha'.
    apply andb_prop in Ha as [_ Ha]. apply andb_prop in Ha' as [_ Ha'].
    destruct (IH a' b b' Ha Ha' E) as [-> ->]. auto.
Qed.

(** X15. Different slots have different lock keys: the key of line 83
    determines the profile id and the slot index, so two requests contend
    for the same key only when they try the same slot of the same
    profile. *)
Theorem slot_keys_are_distinct profile_id stream_index profile_id' stream_index' :
  slot_key profile_id stream_index = slot_key profile_id' stream_index' ->
  profile_id = profile_id' /\ stream_index = stream_index'.
Proof.
  unfold slot_key. intros E.
  change ("lock:" +:+ ?x) with (String "l" (String "o" (String "c" (String "k"
            (String ":" x))))) in E.
  injection E as E.
  change (":" +:+ ?x) with (String ":" x) in E.
  destruct (split_at_colon _ _ _ _ (pretty_Z_no_colon _) (pretty_Z_no_colon _) E)
    as [Hid Hidx].
  split; apply (inj pretty); assumption.
Qed.

Lemma slot_keys_are_distinct_witness : 21 = 21 /\ 3 = 3.
Proof.
  apply (slot_keys_are_distinct 21 3 21 3). reflexivity.
Defined.
